(** * cross-bridge: the torch-and-bridge crossing solvers

    A shallow embedding of [Bridge::crossNaively] and [Bridge::crossOptimally]
    from [cross-bridge.cpp], together with the facts the specification states
    about them.

    Modelling decisions.
    - A C++ [int] is a [Z] in the range [INT_MIN .. INT_MAX].  Signed overflow
      is undefined behaviour in C++ (and the program's own assumption 5 rules
      it out), so an addition whose mathematical result leaves the range has no
      result: [int_add] returns [None].  Reading a vector out of range is
      undefined as well, and [!!] returns [None] there.  A solver run is
      therefore an [option]: [Some] when every step is defined.
    - [std::cout] is a list of output lines, one constructor per shape of line
      the solvers print.
    - The [Bridge] object is passed explicitly: a member function takes the
      bridge and returns the bridge it leaves behind.
    - A [for] loop over the indices of a vector is a recursion over its
      elements that carries the index along.
    - [getopt_long] and the YAML library are not part of the program: a run
      of [getArgs] is given what the successive calls of [getopt_long] report,
      and [readPeopleFile] what the library makes of the file, entry by entry.
      An exception that leaves [readPeopleFile] is the outcome [Threw], with
      the lines printed before it. *)

From Stdlib Require Import ZArith Lia Ascii DecimalString DecimalZ.
From stdpp Require Import base option list sorting strings.
From Equations Require Import Equations.

Local Open Scope Z_scope.

(** ** Machine integers *)

Definition INT_MAX : Z := 2147483647.
Definition INT_MIN : Z := -2147483648.

Definition in_int (z : Z) : bool := (INT_MIN <=? z) && (z <=? INT_MAX).

(** [a + b] on [int]: undefined when the sum does not fit. *)
Definition int_add (a b : Z) : option Z :=
  if in_int (a + b) then Some (a + b) else None.

(** ** class Person *)

Record Person := mkPerson { getName : string; getSpeed : Z }.

(** The default constructor [Person()]: the empty name and speed 0. *)
Definition Person_new : Person := mkPerson EmptyString 0.

Definition setName (n : string) (p : Person) : Person :=
  mkPerson n (getSpeed p).
Definition setSpeed (s : Z) (p : Person) : Person :=
  mkPerson (getName p) s.

(** [operator<], used by [std::sort]. *)
Definition Person_lt (a b : Person) : bool := getSpeed a <? getSpeed b.

(** ** Output *)

Inductive Line :=
| Endl                        (** [std::cout << std::endl] *)
| Heading (s : string)        (** a fixed line of text *)
| FastestIs (p : Person)      (** ["Fastest overall person: " << p] *)
| CrossTwo (p q : Person)     (** [p << " and " << q << " cross"] *)
| Returns (p : Person)        (** [p << " returns"] *)
| CrossOne (p : Person)       (** [p << " crosses"] *)
| Total (s : string) (t : Z). (** [s << t], the line [main] prints *)

(** The lines that report a crossing or a return. *)
Definition is_event (l : Line) : bool :=
  match l with
  | CrossTwo _ _ | Returns _ | CrossOne _ => true
  | _ => false
  end.

Definition events (out : list Line) : list Line :=
  filter (λ l, is_event l = true) out.

(** ** class Bridge *)

Record Bridge := mkBridge { waitingPeople : list Person }.

(** [std::vector::pop_back]; every call in the program is guarded by a size
    test that makes the vector non-empty. *)
Definition pop_back {A} (v : list A) : list A := removelast v.

(** [std::sort(begin, end)] orders the vector by [operator<].  The standard
    leaves the relative order of equivalent elements open; the model is the
    insertion sort that keeps it, and [sorted_speeds_unique] shows the speeds
    come out the same for every other choice. *)
Fixpoint sort_insert (p : Person) (v : list Person) : list Person :=
  match v with
  | [] => [p]
  | q :: v' => if Person_lt q p then q :: sort_insert p v' else p :: q :: v'
  end.

Definition std_sort (v : list Person) : list Person := foldr sort_insert [] v.

(** *** crossOptimally *)

(** The two ways of taking the two slowest across, named as in the comments
    of the loop body. *)
Inductive Method := Shielding | Naive.

Definition totalShielding (w : list Person) : option Z :=
  let n := length w in
  p1 ← w !! 1%nat; p0 ← w !! 0%nat; pn1 ← w !! (n - 1)%nat;
  s ← int_add (getSpeed p1) (getSpeed p0);
  s ← int_add s (getSpeed pn1);
  int_add s (getSpeed p1).

Definition totalNaive (w : list Person) : option Z :=
  let n := length w in
  p0 ← w !! 0%nat; pn1 ← w !! (n - 1)%nat; pn2 ← w !! (n - 2)%nat;
  s ← int_add (getSpeed pn1) (getSpeed p0);
  s ← int_add s (getSpeed pn2);
  int_add s (getSpeed p0).

(** The test [if (totalShielding < totalNaive)]. *)
Definition chooseMethod (tS tN : Z) : Method :=
  if tS <? tN then Shielding else Naive.

(** One pass of the body of the [while] loop, up to the two [pop_back]s. *)
Definition iteration (w : list Person) (totalSpeed : Z) (out : list Line)
  : option (Z * list Line) :=
  let n := length w in
  tS ← totalShielding w;
  tN ← totalNaive w;
  p0 ← w !! 0%nat; p1 ← w !! 1%nat;
  pn1 ← w !! (n - 1)%nat; pn2 ← w !! (n - 2)%nat;
  match chooseMethod tS tN with
  | Shielding =>
      totalSpeed ← int_add totalSpeed tS;
      Some (totalSpeed,
            out ++ [CrossTwo p1 p0; Returns p0; CrossTwo pn1 pn2; Returns p1])
  | Naive =>
      totalSpeed ← int_add totalSpeed tN;
      Some (totalSpeed,
            out ++ [CrossTwo pn1 p0; Returns p0; CrossTwo pn2 p0; Returns p0])
  end.

(** [while (waitingPeople.size() >= 4) { ... }] *)
Equations? optimalLoop (w : list Person) (totalSpeed : Z) (out : list Line)
  : option (Z * list Line * list Person) by wf (length w) lt :=
  optimalLoop w totalSpeed out with decide (4 ≤ length w)%nat := {
    | left _ with iteration w totalSpeed out := {
        | Some (totalSpeed', out') =>
            optimalLoop (pop_back (pop_back w)) totalSpeed' out'
        | None => None };
    | right _ => Some (totalSpeed, out, w) }.
Proof.
  unfold pop_back. destruct w as [|? w0] using rev_ind; simpl in *; [lia|].
  rewrite removelast_last.
  destruct w0 as [|? w1] using rev_ind; simpl in *; [lia|].
  rewrite removelast_last, !length_app. simpl. lia.
Qed.

(** The four cases after the loop. *)
Definition baseCases (w : list Person) (totalSpeed : Z) (out : list Line)
  : option (Z * list Line * list Person) :=
  if decide (length w = 0%nat) then
    totalSpeed ← int_add totalSpeed 0;
    Some (totalSpeed, out, w)
  else if decide (length w = 1%nat) then
    p0 ← w !! 0%nat;
    totalSpeed ← int_add totalSpeed (getSpeed p0);
    Some (totalSpeed, out ++ [CrossOne p0], pop_back w)
  else if decide (length w = 2%nat) then
    p1 ← w !! 1%nat; p0 ← w !! 0%nat;
    totalSpeed ← int_add totalSpeed (getSpeed p1);
    Some (totalSpeed, out ++ [CrossTwo p1 p0], pop_back (pop_back w))
  else if decide (length w = 3%nat) then
    p2 ← w !! 2%nat; p0 ← w !! 0%nat; p1 ← w !! 1%nat;
    s ← int_add (getSpeed p0) (getSpeed p1);
    s ← int_add s (getSpeed p2);
    totalSpeed ← int_add totalSpeed s;
    Some (totalSpeed,
          out ++ [CrossTwo p2 p0; Returns p0; CrossTwo p1 p0],
          pop_back (pop_back (pop_back w)))
  else Some (totalSpeed, out, w).

Definition optimalHeader : list Line :=
  [Endl; Heading "Optimal sequence of bridge crossings:"].

Definition crossOptimally (b : Bridge) : option (Z * list Line * Bridge) :=
  let totalSpeed := 0 in
  let w := std_sort (waitingPeople b) in
  let out := optimalHeader in
  '(totalSpeed, out, w) ← optimalLoop w totalSpeed out;
  '(totalSpeed, out, w) ← baseCases w totalSpeed out;
  Some (totalSpeed, out, mkBridge w).

(** *** crossNaively *)

(** The scan for the fastest person: [rest] is the part of the vector not yet
    visited and [i] the index of its first element. *)
Fixpoint findFastest (rest : list Person) (i : Z) (fastest : Person)
  (fastestindex : Z) : Person * Z :=
  match rest with
  | [] => (fastest, fastestindex)
  | p :: rest' =>
      if getSpeed p <? getSpeed fastest
      then findFastest rest' (i + 1)
             (setSpeed (getSpeed p) (setName (getName p) fastest)) i
      else findFastest rest' (i + 1) fastest fastestindex
  end.

(** The loop that copies everyone but the fastest into the queue [q]; the
    front of the queue is the head of the list. *)
Fixpoint fillQueue (rest : list Person) (i : Z) (fastestindex : Z)
  (q : list Person) : list Person :=
  match rest with
  | [] => q
  | wi :: rest' =>
      if bool_decide (i ≠ fastestindex)
      then
        let p := setSpeed (getSpeed wi) (setName (getName wi) Person_new) in
        fillQueue rest' (i + 1) fastestindex (q ++ [p])
      else fillQueue rest' (i + 1) fastestindex q
  end.

(** [while (q.size() > 0) { ... }] *)
Fixpoint processQueue (fastest : Person) (q : list Person) (totalSpeed : Z)
  (out : list Line) : option (Z * list Line) :=
  match q with
  | [] => Some (totalSpeed, out)
  | front :: q' =>
      totalSpeed ← int_add totalSpeed (getSpeed front);
      let out := out ++ [CrossTwo front fastest] in
      if decide (0 < length q')%nat then
        let out := out ++ [Returns fastest] in
        totalSpeed ← int_add totalSpeed (getSpeed fastest);
        processQueue fastest q' totalSpeed out
      else processQueue fastest q' totalSpeed out
  end.

Definition crossNaively (b : Bridge) : option (Z * list Line * Bridge) :=
  let totalSpeed := 0 in
  let w := waitingPeople b in
  if decide (length w = 0%nat) then Some (0, [], b)
  else if decide (length w = 1%nat) then
    p0 ← w !! 0%nat; Some (getSpeed p0, [], b)
  else
    let fastest := setSpeed INT_MAX (setName "maxint" Person_new) in
    let '(fastest, fastestindex) := findFastest w 0 fastest (-1) in
    let out := [Endl; FastestIs fastest] in
    let q := fillQueue w 0 fastestindex [] in
    let out := out ++ [Endl; Heading "Naive sequence of bridge crossings:"] in
    '(totalSpeed, out) ← processQueue fastest q totalSpeed out;
    Some (totalSpeed, out, b).

(** The part of [main] after the roster has been read: both solvers in turn
    on the one bridge, each followed by the line that reports its total. *)
Definition main (b : Bridge) : option (Z * Z * list Line * Bridge) :=
  '(naive, out1, b) ← crossNaively b;
  let out1 := out1 ++ [Endl; Total "The naive fastest total time is: " naive] in
  '(optimal, out2, b) ← crossOptimally b;
  let out2 :=
    out2 ++ [Endl; Total "The optimal fastest total time is: " optimal] in
  Some (naive, optimal, out1 ++ out2, b).

Definition classic : Bridge :=
  mkBridge [mkPerson "A" 1; mkPerson "B" 2; mkPerson "C" 5; mkPerson "D" 10].

(** Four people for whom the two candidate costs of the loop tie. *)
Definition tieRoster : list Person :=
  [mkPerson "A" 1; mkPerson "B" 2; mkPerson "C" 3; mkPerson "D" 4].

(** Five people, sorted: one pass of the loop leaves three. *)
Definition fiveRoster : list Person :=
  [mkPerson "A" 1; mkPerson "B" 2; mkPerson "C" 5; mkPerson "D" 10;
   mkPerson "E" 12].

(** The same five as they might be read from a file. *)
Definition fiveBridge : Bridge :=
  mkBridge [mkPerson "E" 12; mkPerson "A" 1; mkPerson "D" 10; mkPerson "C" 5;
            mkPerson "B" 2].

(** ** Vocabulary of the statements *)

(** A person of the input: a positive [int] speed. *)
Definition valid_person (p : Person) : Prop := 0 < getSpeed p ≤ INT_MAX.
Definition valid_roster (w : list Person) : Prop := Forall valid_person w.

(** [p] is at least as fast as [q]. *)
Definition speed_le (p q : Person) : Prop := getSpeed p ≤ getSpeed q.

Definition speeds (w : list Person) : list Z := getSpeed <$> w.

Fixpoint speedSum (w : list Person) : Z :=
  match w with
  | [] => 0
  | p :: w' => getSpeed p + speedSum w'
  end.

(** The least speed in the roster ([INT_MAX] when it is empty). *)
Fixpoint minSpeed (w : list Person) : Z :=
  match w with
  | [] => INT_MAX
  | p :: w' => Z.min (getSpeed p) (minSpeed w')
  end.

(** The crossing and return lines the queue loop prints. *)
Fixpoint naiveEvents (fastest : Person) (q : list Person) : list Line :=
  match q with
  | [] => []
  | front :: q' =>
      CrossTwo front fastest ::
        match q' with
        | [] => []
        | _ => Returns fastest :: naiveEvents fastest q'
        end
  end.

(** What the naive solver costs on a roster of two or more: everybody's
    speed but the fastest's once, and the fastest's once for every return. *)
Definition naiveCost (w : list Person) : Z :=
  speedSum w + (Z.of_nat (length w) - 3) * minSpeed w.

Definition naiveHeader (fastest : Person) : list Line :=
  [Endl; FastestIs fastest; Endl;
   Heading "Naive sequence of bridge crossings:"].

(** The arithmetic of one pass of the loop, on the four speeds it reads:
    the fastest [a0], the second fastest [a1], the second slowest [y] and the
    slowest [z]. *)
Definition stepTotal (a0 a1 y z t : Z) : option Z :=
  s ← int_add a1 a0; s ← int_add s z; tS ← int_add s a1;
  s ← int_add z a0; s ← int_add s y; tN ← int_add s a0;
  match chooseMethod tS tN with
  | Shielding => int_add t tS
  | Naive => int_add t tN
  end.

(** The loop followed by the base cases, from any vector and running total. *)
Definition optimalRun (w : list Person) (t : Z) (out : list Line)
  : option (Z * list Line * list Person) :=
  '(t, out, w) ← optimalLoop w t out; baseCases w t out.

(** The total a run returns, when it returns. *)
Definition totalOf {A} (r : option (Z * list Line * A)) : option Z :=
  (λ x, x.1.1) <$> r.

(** ** The puzzle, for replaying a log *)

#[global] Instance Person_eq_dec : EqDecision Person.
Proof. solve_decision. Defined.

(** Where the torch is. *)
Inductive Side := Near | Far.

(** Who stands on which bank, and where the torch is. *)
Record Shore := mkShore { near : list Person; far : list Person; torch : Side }.

(** Take one occurrence of [p] out of a bank; [None] when [p] is not there. *)
Fixpoint takeOut (p : Person) (l : list Person) : option (list Person) :=
  match l with
  | [] => None
  | q :: l' => if decide (p = q) then Some l' else (q ::.) <$> takeOut p l'
  end.

(** One logged move, by the rules of the problem statement: at most two
    cross, the torch goes with them, and they must be where the torch is. *)
Definition move (s : Shore) (e : Line) : option Shore :=
  match e, torch s with
  | CrossTwo p q, Near =>
      n1 ← takeOut p (near s); n2 ← takeOut q n1;
      Some (mkShore n2 (p :: q :: far s) Far)
  | CrossOne p, Near =>
      n1 ← takeOut p (near s); Some (mkShore n1 (p :: far s) Far)
  | Returns p, Far =>
      f1 ← takeOut p (far s); Some (mkShore (p :: near s) f1 Near)
  | _, _ => None
  end.

Fixpoint replay (s : Shore) (evs : list Line) : option Shore :=
  match evs with
  | [] => Some s
  | e :: evs' => s' ← move s e; replay s' evs'
  end.

(** The time a move takes: two people cross at the pace of the slower. *)
Definition moveCost (e : Line) : Z :=
  match e with
  | CrossTwo p q => Z.max (getSpeed p) (getSpeed q)
  | Returns p | CrossOne p => getSpeed p
  | _ => 0
  end.

Fixpoint duration (evs : list Line) : Z :=
  match evs with
  | [] => 0
  | e :: evs' => moveCost e + duration evs'
  end.

(** [evs] is a plan for the people [w]: crossing and return lines only, that
    replay from any arrangement of [w] on the near bank, torch included, and
    leave the near bank empty and [w] added to the far bank. *)
Definition plan (w : list Person) (evs : list Line) : Prop :=
  events evs = evs ∧
  ∀ n f, n ≡ₚ w →
    ∃ f', replay (mkShore n f Near) evs
            = Some (mkShore [] f' (if decide (w = []) then Near else Far)) ∧
          f' ≡ₚ w ++ f.

(** ** Text *)

(** [os << n] for an [int n]: decimal digits, a minus sign when negative. *)
Definition show_int (z : Z) : string := NilZero.string_of_int (Z.to_int z).

(** [Person::print], and with it [operator<<] on a [Person]:
    the name and the speed between parentheses, as in [(Fred,12)]. *)
Definition print (p : Person) : string :=
  "(" +:+ getName p +:+ "," +:+ show_int (getSpeed p) +:+ ")".

(** The text of a line of output, without the line end. *)
Definition render (l : Line) : string :=
  match l with
  | Endl => EmptyString
  | Heading s => s
  | FastestIs p => "Fastest overall person: " +:+ print p
  | CrossTwo p q => print p +:+ " and " +:+ print q +:+ " cross"
  | Returns p => print p +:+ " returns"
  | CrossOne p => print p +:+ " crosses"
  | Total s t => s +:+ show_int t
  end.

(** White space for a stream in the classic locale. *)
Definition isspace (c : ascii) : bool :=
  let n := nat_of_ascii c in
  ((n =? 32) || ((9 <=? n) && (n <=? 13)))%nat.

Fixpoint skipws (s : string) : string :=
  match s with
  | String c s' => if isspace c then skipws s' else s
  | EmptyString => EmptyString
  end.

(** The characters up to the first white space. *)
Fixpoint token (s : string) : string :=
  match s with
  | String c s' => if isspace c then EmptyString else String c (token s')
  | EmptyString => EmptyString
  end.

(** [stream.str(src); stream >> dst] on a stream in good state: skip white
    space and store the next word in [dst]; when there is no word the
    extraction fails and [dst] keeps its value. *)
Definition extract (src dst : string) : string :=
  match skipws src with
  | EmptyString => dst
  | s => token s
  end.

(** ** class Arguments *)

Record Arguments := mkArguments {
  help : bool;
  abort : bool;
  progName : string;
  peopleFilename : string
}.

(** The constructor. *)
Definition Arguments_new : Arguments :=
  mkArguments false false EmptyString EmptyString.

Definition printHelp (a : Arguments) : list Line :=
  [Heading ("Usage: " +:+ progName a +:+ " --people <filename> [--help]")].

(** What one call of [getopt_long] reports: its return value, and the
    values it leaves in [optarg] and in [longoptsindex]. *)
Record GetoptResult := mkGetopt {
  opt : Z;
  optarg : option string;
  longoptsindex : nat
}.

(** The table [longopts] without its closing entry: name and [val]; every
    [flag] is [nullptr]. *)
Definition longopts : list (string * Z) := [("people", 112); ("help", 104)].

(** The body of the [while (opt != -1)] loop: the [switch]. *)
Definition handleOption (a : Arguments) (r : GetoptResult)
  : option (Arguments * list Line) :=
  if decide (opt r = 0) then
    '(name, _) ← longopts !! longoptsindex r;
    let arg := match optarg r with
               | Some s => " with arg " +:+ s
               | None => EmptyString
               end in
    Some (a, [Heading ("option " +:+ name +:+ arg)])
  else if decide (opt r = 112) then
    s ← optarg r;
    Some (mkArguments (help a) (abort a) (progName a)
            (extract s (peopleFilename a)), [])
  else if decide (opt r = 104) then
    Some (mkArguments true true (progName a) (peopleFilename a), [])
  else if decide (opt r = 63) then
    Some (mkArguments (help a) true (progName a) (peopleFilename a), [])
  else if decide (opt r = 58) then
    Some (mkArguments (help a) true (progName a) (peopleFilename a), [])
  else Some (a, [Total "Unexpected option: " (opt r)]).

(** The loop over the results of [getopt_long], up to the first [-1]. *)
Fixpoint optionLoop (rs : list GetoptResult) (a : Arguments) (out : list Line)
  : option (Arguments * list Line) :=
  match rs with
  | [] => Some (a, out)
  | r :: rs' =>
      '(a', o) ← handleOption a r; optionLoop rs' a' (out ++ o)
  end.

(** [Arguments::getArgs].  [argv0] is [argv[0]], [rs] the successive results
    of [getopt_long] and [rest] the arguments from [optind] on when it is
    done. *)
Definition getArgs (argv0 : string) (rs : list GetoptResult)
  (rest : list string) (a : Arguments) : option (Arguments * list Line) :=
  let a := mkArguments (help a) (abort a) (extract argv0 (progName a))
             (peopleFilename a) in
  '(a, out) ← optionLoop rs a [];
  if decide (rest = []) then Some (a, out)
  else
    let listed := foldr (λ s acc, s +:+ " " +:+ acc) EmptyString rest in
    Some (mkArguments (help a) true (progName a) (peopleFilename a),
          out ++ [Heading ("Error: unrecognized arguments: " +:+ listed)]).

(** ** Bridge::readPeopleFile *)

(** One entry of the [people] sequence as the YAML library presents it:
    what printing the [name] and [speed] nodes gives, and what [as<>]
    converts them to, [None] standing for the exception it throws. *)
Record YamlPerson := mkYamlPerson {
  nameNode : string;
  speedNode : string;
  nameAs : option string;
  speedAs : option Z
}.

(** A call that returns, or an exception that leaves the function after the
    output [out]. *)
Inductive Outcome (A : Type) :=
| Done (a : A)
| Threw (out : list Line).
Arguments Done {A} a.
Arguments Threw {A} out.

(** The [for] loop of [readPeopleFile]; [i] is the index of the first entry
    of [rest]. *)
Fixpoint readLoop (rest : list YamlPerson) (i : Z) (w : list Person)
  (out : list Line) : Outcome (list Line * list Person) :=
  match rest with
  | [] => Done (out, w)
  | y :: rest' =>
      let out :=
        out ++ [Heading ("Person " +:+ show_int i +:+ " -  Name: " +:+
                         nameNode y +:+ "  Speed: " +:+ speedNode y)] in
      match nameAs y with
      | None => Threw out
      | Some n =>
          let p := setName n Person_new in
          match speedAs y with
          | None => Threw out
          | Some s =>
              let p := setSpeed s p in
              readLoop rest' (i + 1) (w ++ [p]) out
          end
      end
  end.

(** [doc] is what the YAML library makes of the file: the entries of the
    sequence under [people] (none when there is no such key), or [None] when
    [YAML::LoadFile] throws. *)
Definition readPeopleFile (doc : option (list YamlPerson)) (b : Bridge)
  : Outcome (list Line * Bridge) :=
  match doc with
  | None => Threw []
  | Some people =>
      let out :=
        [Endl;
         Heading (if decide (0 < length people)%nat
                  then "List of all people:"
                  else "No people found in YAML input file")] in
      match readLoop people 0 (waitingPeople b) out with
      | Done (out, w) => Done (out, mkBridge w)
      | Threw out => Threw out
      end
  end.

(** [main] from its first line.  [load] stands for the file system and the
    YAML library; the solvers' part is [main] above. *)
Definition program (argv0 : string) (rs : list GetoptResult)
  (rest : list string) (load : string → option (list YamlPerson))
  : option (Outcome (list Line)) :=
  let out := [Heading "Running..."] in
  '(args, o) ← getArgs argv0 rs rest Arguments_new;
  let out := out ++ o in
  let out := if help args then out ++ printHelp args else out in
  if abort args then Some (Done out)
  else if decide (peopleFilename args = EmptyString) then
    Some (Done (out ++ [Heading (progName args +:+
                                 ": ERROR: Missing option peopleFile")]))
  else
    match readPeopleFile (load (peopleFilename args)) (mkBridge []) with
    | Threw o => Some (Threw (out ++ o))
    | Done (o, narrowBridge) =>
        '(_, _, o', _) ← main narrowBridge;
        Some (Done (out ++ o ++ o'))
    end.

(** The four people of [classic] as a file, a file whose second entry has
    a speed that is no number, and a disk that holds [doc] as
    [people.yaml] and nothing else. *)
Definition demoYaml : list YamlPerson :=
  [mkYamlPerson "A" "1" (Some "A") (Some 1);
   mkYamlPerson "B" "2" (Some "B") (Some 2);
   mkYamlPerson "C" "5" (Some "C") (Some 5);
   mkYamlPerson "D" "10" (Some "D") (Some 10)].

Definition badYaml : list YamlPerson :=
  [mkYamlPerson "A" "1" (Some "A") (Some 1);
   mkYamlPerson "B" "fast" (Some "B") None].

Definition disk (doc : list YamlPerson) (filename : string)
  : option (list YamlPerson) :=
  if decide (filename = "people.yaml") then Some doc else None.

(** ** Vocabulary for the input and the text *)

(** The entry [y] of the file converts to the person [p]. *)
Definition converts (y : YamlPerson) (p : Person) : Prop :=
  nameAs y = Some (getName p) ∧ speedAs y = Some (getSpeed p).

(** A line that reports no total: a line end or a fixed text. *)
Definition plain (l : Line) : Prop := l = Endl ∨ ∃ s, l = Heading s.

(** The character [c] occurs in [s]. *)
Fixpoint occurs (c : ascii) (s : string) : bool :=
  match s with
  | String d s' => if decide (c = d) then true else occurs c s'
  | EmptyString => false
  end.

(** * Facts about the model *)

(** ** Integers *)

Lemma int_add_Some a b c :
  int_add a b = Some c ↔ c = a + b ∧ INT_MIN ≤ a + b ≤ INT_MAX.
Proof.
  unfold int_add, in_int.
  destruct (INT_MIN <=? a + b) eqn:Hlo; destruct (a + b <=? INT_MAX) eqn:Hhi;
    simpl; split; intros H; try discriminate; try lia.
  - injection H as <-. lia.
  - destruct H as [-> _]. reflexivity.
Qed.

Lemma int_add_fits a b :
  INT_MIN ≤ a + b ≤ INT_MAX → int_add a b = Some (a + b).
Proof. intros H. apply int_add_Some. auto. Qed.

(** ** People and rosters *)

Lemma copy_fields_new p :
  setSpeed (getSpeed p) (setName (getName p) Person_new) = p.
Proof. by destruct p. Qed.

Lemma copy_fields p f :
  setSpeed (getSpeed p) (setName (getName p) f) = p.
Proof. by destruct p. Qed.

#[local] Instance speed_le_refl : Reflexive speed_le.
Proof. intros p. unfold speed_le. lia. Qed.
#[local] Instance speed_le_trans : Transitive speed_le.
Proof. intros p q r. unfold speed_le. lia. Qed.

Lemma speedSum_app w v : speedSum (w ++ v) = speedSum w + speedSum v.
Proof. induction w; simpl; lia. Qed.

Lemma speedSum_perm w v : w ≡ₚ v → speedSum w = speedSum v.
Proof. induction 1; simpl; lia. Qed.

Lemma minSpeed_perm w v : w ≡ₚ v → minSpeed w = minSpeed v.
Proof. induction 1; simpl; lia. Qed.

Lemma minSpeed_lower w : Forall (λ p, minSpeed w ≤ getSpeed p) w.
Proof.
  induction w as [|p w IH]; simpl; constructor; [lia|].
  eapply Forall_impl; [exact IH|]. simpl. intros; lia.
Qed.

Lemma minSpeed_pos w : valid_roster w → 0 < minSpeed w.
Proof.
  induction 1 as [|p w Hp _ IH]; simpl; [unfold INT_MAX; lia|].
  destruct Hp. lia.
Qed.

Lemma minSpeed_least w f :
  getSpeed f ≤ INT_MAX → f ∈ w → Forall (speed_le f) w →
  minSpeed w = getSpeed f.
Proof.
  intros Hmax Hin Hall. pose proof (minSpeed_lower w) as Hlow.
  rewrite Forall_forall in Hlow. specialize (Hlow _ Hin).
  assert (getSpeed f ≤ minSpeed w); [|lia].
  clear Hin Hlow. induction Hall as [|p w Hp _ IH]; simpl; [done|].
  unfold speed_le in Hp. lia.
Qed.

Lemma speedSum_lower w c :
  Forall (λ p, c ≤ getSpeed p) w → Z.of_nat (length w) * c ≤ speedSum w.
Proof. induction 1; simpl length; simpl speedSum; lia. Qed.

Lemma speedSum_nonneg w : Forall (λ p, 0 ≤ getSpeed p) w → 0 ≤ speedSum w.
Proof. intros H. apply speedSum_lower in H. lia. Qed.

Lemma valid_roster_nonneg w : valid_roster w → Forall (λ p, 0 ≤ getSpeed p) w.
Proof. intros H. eapply Forall_impl; [exact H|]. intros p [? ?]. lia. Qed.

Lemma valid_roster_perm w v : w ≡ₚ v → valid_roster w → valid_roster v.
Proof. intros Hp Hw. unfold valid_roster. by rewrite <- Hp. Qed.

(** ** std::sort *)

Lemma sort_insert_perm p v : sort_insert p v ≡ₚ p :: v.
Proof.
  induction v as [|q v IH]; simpl; [done|].
  destruct (Person_lt q p); [|done].
  rewrite IH. apply Permutation_swap.
Qed.

Lemma std_sort_perm v : std_sort v ≡ₚ v.
Proof.
  induction v as [|p v IH]; simpl; [done|].
  by rewrite sort_insert_perm, IH.
Qed.

Lemma sort_insert_sorted p v :
  StronglySorted speed_le v → StronglySorted speed_le (sort_insert p v).
Proof.
  induction 1 as [|q v Hs IH Hq]; simpl.
  - repeat constructor.
  - unfold Person_lt. destruct (Z.ltb_spec (getSpeed q) (getSpeed p)).
    + constructor; [done|]. rewrite sort_insert_perm.
      constructor; [unfold speed_le; lia|done].
    + constructor; [by constructor|].
      constructor; [done|].
      eapply Forall_impl; [exact Hq|]. unfold speed_le. simpl. intros; lia.
Qed.

Lemma std_sort_sorted v : StronglySorted speed_le (std_sort v).
Proof.
  induction v as [|p v IH]; simpl; [constructor|]. by apply sort_insert_sorted.
Qed.

Lemma std_sort_length v : length (std_sort v) = length v.
Proof. apply Permutation_length, std_sort_perm. Qed.

(** Whatever order a sort leaves equal speeds in, the sequence of speeds is
    the same. *)
Lemma sorted_speeds_unique w v :
  StronglySorted speed_le w → StronglySorted speed_le v → w ≡ₚ v →
  speeds w = speeds v.
Proof.
  intros Hw Hv Hp. unfold speeds.
  apply (StronglySorted_unique Z.le).
  - eapply StronglySorted_fmap; [|exact Hw]. auto.
  - eapply StronglySorted_fmap; [|exact Hv]. auto.
  - by rewrite Hp.
Qed.

(** ** crossNaively *)

Lemma findFastest_spec rest : ∀ i f idx,
  (findFastest rest i f idx = (f, idx) ∧ Forall (speed_le f) rest) ∨
  (∃ (k : nat) p, rest !! k = Some p ∧
      findFastest rest i f idx = (p, i + Z.of_nat k) ∧
      getSpeed p < getSpeed f ∧ Forall (speed_le p) rest).
Proof.
  induction rest as [|p rest IH]; intros i f idx; simpl.
  - left. split; [done|constructor].
  - destruct (Z.ltb_spec (getSpeed p) (getSpeed f)) as [Hlt|Hge].
    + rewrite copy_fields. right.
      destruct (IH (i + 1) p i) as [[-> Hall]|(k & p' & Hk & -> & Hlt' & Hall)].
      * exists 0%nat, p. repeat split; try done.
        -- f_equal. lia.
        -- by constructor.
      * exists (S k), p'. repeat split; try done.
        -- f_equal. lia.
        -- lia.
        -- constructor; [unfold speed_le; lia|done].
    + destruct (IH (i + 1) f idx)
        as [[-> Hall]|(k & p' & Hk & -> & Hlt' & Hall)].
      * left. split; [done|]. by constructor.
      * right. exists (S k), p'. repeat split; try done.
        -- f_equal. lia.
        -- constructor; [unfold speed_le; lia|done].
Qed.

Lemma fillQueue_skip rest : ∀ i idx q,
  idx < i ∨ i + Z.of_nat (length rest) ≤ idx →
  fillQueue rest i idx q = q ++ rest.
Proof.
  induction rest as [|p rest IH]; intros i idx q Hout; simpl.
  - by rewrite app_nil_r.
  - rewrite bool_decide_eq_true_2 by (simpl in Hout; lia).
    rewrite copy_fields_new, IH by (simpl in Hout; lia).
    by rewrite <- app_assoc.
Qed.

Lemma fillQueue_delete rest : ∀ (k : nat) i q p,
  rest !! k = Some p →
  fillQueue rest i (i + Z.of_nat k) q = q ++ delete k rest.
Proof.
  induction rest as [|p0 rest IH]; intros k i q p Hk; [done|].
  destruct k as [|k]; cbn [fillQueue].
  - rewrite bool_decide_eq_false_2 by lia.
    apply fillQueue_skip. lia.
  - rewrite bool_decide_eq_true_2 by lia.
    rewrite copy_fields_new.
    replace (i + Z.of_nat (S k)) with ((i + 1) + Z.of_nat k) by lia.
    rewrite (IH k (i + 1) _ p) by done.
    by rewrite <- app_assoc.
Qed.

Lemma processQueue_cons f p q t out :
  processQueue f (p :: q) t out =
  t1 ← int_add t (getSpeed p);
  if decide (0 < length q)%nat then
    t2 ← int_add t1 (getSpeed f);
    processQueue f q t2 ((out ++ [CrossTwo p f]) ++ [Returns f])
  else processQueue f q t1 (out ++ [CrossTwo p f]).
Proof. reflexivity. Qed.

Lemma processQueue_Some f q : ∀ t out t' out',
  q ≠ [] → processQueue f q t out = Some (t', out') →
  t' = t + speedSum q + (Z.of_nat (length q) - 1) * getSpeed f ∧
  INT_MIN ≤ t' ≤ INT_MAX ∧
  out' = out ++ naiveEvents f q.
Proof.
  induction q as [|p q IH]; intros t out t' out' Hne Hrun; [done|].
  rewrite processQueue_cons in Hrun.
  destruct (int_add t (getSpeed p)) as [t1|] eqn:E1; [|done].
  apply int_add_Some in E1 as [-> Hr1]. cbn [mbind option_bind] in Hrun.
  destruct q as [|p' q].
  - simpl in Hrun. injection Hrun as <- <-. simpl. split; [lia|done].
  - rewrite decide_True in Hrun by (simpl; lia).
    destruct (int_add (t + getSpeed p) (getSpeed f)) as [t2|] eqn:E2; [|done].
    apply int_add_Some in E2 as [-> Hr2]. cbn [mbind option_bind] in Hrun.
    apply IH in Hrun as (-> & Hr & ->); [|done].
    split; [|split; [done|]].
    + simpl length. simpl speedSum. lia.
    + rewrite <- !app_assoc. reflexivity.
Qed.

Lemma processQueue_defined f q : ∀ t out,
  Forall (λ p, 0 ≤ getSpeed p) q → 0 ≤ getSpeed f → INT_MIN ≤ t →
  q ≠ [] →
  t + speedSum q + (Z.of_nat (length q) - 1) * getSpeed f ≤ INT_MAX →
  is_Some (processQueue f q t out).
Proof.
  induction q as [|p q IH]; intros t out Hq Hf Ht Hne Hfit; [done|].
  inversion_clear Hq as [|? ? Hp Hq'].
  pose proof (speedSum_nonneg _ Hq') as Hsum.
  rewrite processQueue_cons.
  simpl speedSum in Hfit. simpl length in Hfit.
  destruct q as [|p' q].
  - rewrite int_add_fits by (simpl in Hfit; lia). simpl. eauto.
  - assert (0 ≤ Z.of_nat (length (p' :: q)) - 1) by (simpl; lia).
    rewrite int_add_fits by nia. cbn [mbind option_bind].
    rewrite decide_True by (simpl; lia).
    rewrite int_add_fits by nia. cbn [mbind option_bind].
    apply IH; [done|done|lia|done|].
    nia.
Qed.

Lemma speedSum_delete w (i : nat) f :
  w !! i = Some f → speedSum w = getSpeed f + speedSum (delete i w).
Proof.
  intros H. by rewrite (speedSum_perm _ _ (delete_Permutation _ _ _ H)).
Qed.

Lemma crossNaively_run b t out b' :
  (2 ≤ length (waitingPeople b))%nat →
  Forall (λ p, getSpeed p ≤ INT_MAX) (waitingPeople b) →
  crossNaively b = Some (t, out, b') →
  ∃ (i : nat) f,
    waitingPeople b !! i = Some f ∧
    Forall (speed_le f) (waitingPeople b) ∧
    getSpeed f < INT_MAX ∧
    t = speedSum (delete i (waitingPeople b)) +
        (Z.of_nat (length (waitingPeople b)) - 2) * getSpeed f ∧
    INT_MIN ≤ t ≤ INT_MAX ∧
    out = naiveHeader f ++ naiveEvents f (delete i (waitingPeople b)) ∧
    b' = b.
Proof.
  intros Hlen Hmax Hrun. unfold crossNaively in Hrun.
  rewrite !decide_False in Hrun by lia.
  set (sentinel := setSpeed INT_MAX (setName "maxint" Person_new)) in Hrun.
  destruct (findFastest_spec (waitingPeople b) 0 sentinel (-1))
    as [[Hff Hall]|(k & f & Hk & Hff & Hlt & Hall)];
    rewrite Hff in Hrun.
  - exfalso. rewrite fillQueue_skip in Hrun by lia. simpl app at 1 in Hrun.
    destruct (processQueue _ _ _ _) as [[t0 out0]|] eqn:E; [|done].
    apply processQueue_Some in E as (E & Hr & _).
    2:{ intros Hnil. rewrite Hnil in Hlen. simpl in Hlen. lia. }
    assert (Hlow : Forall (λ p, INT_MAX ≤ getSpeed p) (waitingPeople b)).
    { eapply Forall_impl; [exact Hall|]. done. }
    apply speedSum_lower in Hlow. simpl in E. unfold INT_MAX in *. nia.
  - rewrite (fillQueue_delete _ _ _ _ _ Hk) in Hrun. simpl app at 1 in Hrun.
    destruct (processQueue _ _ _ _) as [[t0 out0]|] eqn:E; [|done].
    injection Hrun as <- <- <-.
    assert (Hdl : length (delete k (waitingPeople b)) =
                  (length (waitingPeople b) - 1)%nat).
    { apply length_delete. eauto. }
    apply processQueue_Some in E as (E & Hr & Hout).
    2:{ intros Hnil. rewrite Hnil in Hdl. simpl in Hdl. lia. }
    exists k, f. rewrite E, Hdl in *. repeat split; try done; try lia.
Qed.

Lemma crossNaively_cost b t out b' :
  (2 ≤ length (waitingPeople b))%nat →
  Forall (λ p, getSpeed p ≤ INT_MAX) (waitingPeople b) →
  crossNaively b = Some (t, out, b') →
  t = naiveCost (waitingPeople b) ∧ t ≤ INT_MAX ∧
  minSpeed (waitingPeople b) < INT_MAX.
Proof.
  intros Hlen Hmax Hrun.
  destruct (crossNaively_run _ _ _ _ Hlen Hmax Hrun)
    as (i & f & Hi & Hall & Hlt & -> & Hr & _).
  assert (Hmin : minSpeed (waitingPeople b) = getSpeed f).
  { apply minSpeed_least; [lia| |done]. eapply list_elem_of_lookup_2, Hi. }
  unfold naiveCost. rewrite Hmin, (speedSum_delete _ _ _ Hi). lia.
Qed.

Lemma crossNaively_defined b :
  (2 ≤ length (waitingPeople b))%nat →
  valid_roster (waitingPeople b) →
  minSpeed (waitingPeople b) < INT_MAX →
  naiveCost (waitingPeople b) ≤ INT_MAX →
  ∃ out, crossNaively b = Some (naiveCost (waitingPeople b), out, b).
Proof.
  intros Hlen Hvalid Hmin Hfit.
  assert (Hmax : Forall (λ p, getSpeed p ≤ INT_MAX) (waitingPeople b)).
  { eapply Forall_impl; [exact Hvalid|]. intros p [? ?]. done. }
  destruct (crossNaively b) as [[[t out] b']|] eqn:Hrun.
  { destruct (crossNaively_cost _ _ _ _ Hlen Hmax Hrun) as (-> & _ & _).
    destruct (crossNaively_run _ _ _ _ Hlen Hmax Hrun)
      as (_ & _ & _ & _ & _ & _ & _ & _ & ->).
    eauto. }
  exfalso. unfold crossNaively in Hrun.
  rewrite !decide_False in Hrun by lia.
  set (sentinel := setSpeed INT_MAX (setName "maxint" Person_new)) in Hrun.
  destruct (findFastest_spec (waitingPeople b) 0 sentinel (-1))
    as [[Hff Hall]|(k & f & Hk & Hff & Hlt & Hall)];
    rewrite Hff in Hrun.
  - assert (INT_MAX ≤ minSpeed (waitingPeople b)); [|lia].
    clear -Hall. induction Hall as [|p w Hp _ IH]; simpl; [lia|].
    unfold speed_le in Hp. simpl in Hp. lia.
  - rewrite (fillQueue_delete _ _ _ _ _ Hk) in Hrun. simpl app at 1 in Hrun.
    assert (Hdl : length (delete k (waitingPeople b)) =
                  (length (waitingPeople b) - 1)%nat).
    { apply length_delete. eauto. }
    assert (Hin : f ∈ waitingPeople b) by (eapply list_elem_of_lookup_2, Hk).
    assert (Hf : valid_person f) by (eapply Forall_forall in Hvalid; eauto).
    destruct Hf as [Hf0 Hf1].
    assert (Hm : minSpeed (waitingPeople b) = getSpeed f)
      by (by apply minSpeed_least).
    unfold naiveCost in Hfit. rewrite Hm, (speedSum_delete _ _ _ Hk) in Hfit.
    edestruct (processQueue_defined f (delete k (waitingPeople b)) 0)
      as [[t o] E]; [| | | | |rewrite E in Hrun; done].
    + apply valid_roster_nonneg.
      unfold valid_roster. eapply Forall_delete, Hvalid.
    + lia.
    + done.
    + intros Hnil. rewrite Hnil in Hdl. simpl in Hdl. lia.
    + rewrite Hdl. lia.
Qed.

(** ** The loop of crossOptimally *)

(** Case analysis on every addition and on the branch taken. *)
Ltac run_binds :=
  repeat (cbn [mbind option_bind fmap option_fmap option_map];
          match goal with
          | |- context [int_add ?a ?b] => destruct (int_add a b)
          | |- context [chooseMethod ?a ?b] => destruct (chooseMethod a b)
          end);
  cbn [mbind option_bind fmap option_fmap option_map]; try done.

Lemma optimalLoop_eq w t out :
  optimalLoop w t out =
  if decide (4 ≤ length w)%nat then
    '(t', out') ← iteration w t out;
    optimalLoop (pop_back (pop_back w)) t' out'
  else Some (t, out, w).
Proof.
  simp optimalLoop. destruct (decide _); simpl; [|done].
  by destruct (iteration w t out) as [[]|].
Qed.

Lemma last_two_shape {A} (r : list A) :
  (2 ≤ length r)%nat → ∃ m y z, r = m ++ [y; z].
Proof.
  intros Hlen. destruct r as [|z r _] using rev_ind; [simpl in Hlen; lia|].
  destruct r as [|y r _] using rev_ind.
  { simpl in Hlen. lia. }
  exists r, y, z. by rewrite <- app_assoc.
Qed.

Lemma roster_shape (w : list Person) :
  (4 ≤ length w)%nat → ∃ p0 p1 m y z, w = p0 :: p1 :: m ++ [y; z].
Proof.
  intros Hlen. destruct w as [|p0 [|p1 r]]; simpl in Hlen; try lia.
  destruct (last_two_shape r) as (m & y & z & ->); [lia|]. eauto 6.
Qed.

Lemma shape_pop_back (p0 p1 : Person) m y z :
  pop_back (pop_back (p0 :: p1 :: m ++ [y; z])) = p0 :: p1 :: m.
Proof.
  unfold pop_back.
  change (p0 :: p1 :: m ++ [y; z]) with ((p0 :: p1 :: m) ++ [y; z]).
  replace ((p0 :: p1 :: m) ++ [y; z]) with (((p0 :: p1 :: m) ++ [y]) ++ [z])
    by (by rewrite <- app_assoc).
  by rewrite !removelast_last.
Qed.

Lemma shape_lookup_last (p0 p1 : Person) m y z :
  (p0 :: p1 :: m ++ [y; z]) !! (length (p0 :: p1 :: m ++ [y; z]) - 1)%nat
  = Some z.
Proof.
  change (p0 :: p1 :: m ++ [y; z]) with ((p0 :: p1 :: m) ++ [y; z]).
  rewrite length_app, lookup_app_r by (simpl; lia).
  replace (_ - _)%nat with 1%nat by (simpl; lia). done.
Qed.

Lemma shape_lookup_last2 (p0 p1 : Person) m y z :
  (p0 :: p1 :: m ++ [y; z]) !! (length (p0 :: p1 :: m ++ [y; z]) - 2)%nat
  = Some y.
Proof.
  change (p0 :: p1 :: m ++ [y; z]) with ((p0 :: p1 :: m) ++ [y; z]).
  rewrite length_app, lookup_app_r by (simpl; lia).
  replace (_ - _)%nat with 0%nat by (simpl; lia). done.
Qed.

Lemma iteration_shape p0 p1 m y z t out :
  iteration (p0 :: p1 :: m ++ [y; z]) t out =
  s ← int_add (getSpeed p1) (getSpeed p0);
  s ← int_add s (getSpeed z);
  tS ← int_add s (getSpeed p1);
  s ← int_add (getSpeed z) (getSpeed p0);
  s ← int_add s (getSpeed y);
  tN ← int_add s (getSpeed p0);
  match chooseMethod tS tN with
  | Shielding =>
      t' ← int_add t tS;
      Some (t', out ++ [CrossTwo p1 p0; Returns p0; CrossTwo z y; Returns p1])
  | Naive =>
      t' ← int_add t tN;
      Some (t', out ++ [CrossTwo z p0; Returns p0; CrossTwo y p0; Returns p0])
  end.
Proof.
  unfold iteration, totalShielding, totalNaive.
  rewrite shape_lookup_last, shape_lookup_last2.
  cbn [lookup list_lookup]. run_binds.
Qed.

Lemma iteration_total p0 p1 m y z t out :
  fst <$> iteration (p0 :: p1 :: m ++ [y; z]) t out =
  stepTotal (getSpeed p0) (getSpeed p1) (getSpeed y) (getSpeed z) t.
Proof.
  rewrite iteration_shape. unfold stepTotal. run_binds.
Qed.

Lemma optimalRun_base w t out :
  (length w < 4)%nat → optimalRun w t out = baseCases w t out.
Proof.
  intros Hlen. unfold optimalRun. rewrite optimalLoop_eq.
  by rewrite decide_False by lia.
Qed.

Lemma optimalRun_step p0 p1 m y z t out :
  optimalRun (p0 :: p1 :: m ++ [y; z]) t out =
  '(t', out') ← iteration (p0 :: p1 :: m ++ [y; z]) t out;
  optimalRun (p0 :: p1 :: m) t' out'.
Proof.
  unfold optimalRun at 1. rewrite optimalLoop_eq.
  rewrite decide_True by (simpl; rewrite length_app; simpl; lia).
  rewrite shape_pop_back.
  by destruct (iteration _ _ _) as [[]|].
Qed.

(** Induction along the loop: two people leave at the slow end each time. *)
Lemma roster_loop_ind (P : list Person → Prop) :
  (∀ w, (length w < 4)%nat → P w) →
  (∀ p0 p1 m y z, P (p0 :: p1 :: m) → P (p0 :: p1 :: m ++ [y; z])) →
  ∀ w, P w.
Proof.
  intros Hbase Hstep w.
  remember (length w) as n eqn:Hn. revert w Hn.
  induction n as [n IH] using lt_wf_ind. intros w ->.
  destruct (decide (4 ≤ length w)%nat) as [Hlen|Hlen]; [|apply Hbase; lia].
  destruct (roster_shape w Hlen) as (p0 & p1 & m & y & z & ->).
  eapply Hstep, IH; [|done]. simpl. rewrite length_app. simpl. lia.
Qed.

(** Rewrite the addition [a + b] when it visibly fits. *)
Ltac fit a b :=
  rewrite (int_add_fits a b) by (unfold INT_MIN; lia);
  cbn [mbind option_bind].

(** Open up the additions of a run that is known to return. *)
Ltac int_adds H :=
  repeat (cbn [mbind option_bind fmap option_fmap option_map] in H;
          match type of H with
          | context [int_add ?a ?b] =>
              let E := fresh "E" in
              destruct (int_add a b) eqn:E; [|done];
              apply int_add_Some in E as [-> ?]
          end);
  cbn [mbind option_bind fmap option_fmap option_map] in H.

Lemma stepTotal_Some a0 a1 y z t t' :
  0 ≤ a0 → 0 ≤ a1 → 0 ≤ y → 0 ≤ z → 0 ≤ t →
  stepTotal a0 a1 y z t = Some t' ↔
  2 * a1 + a0 + z ≤ INT_MAX ∧ z + y + 2 * a0 ≤ INT_MAX ∧
  t' = t + Z.min (2 * a1 + a0 + z) (z + y + 2 * a0) ∧ t' ≤ INT_MAX.
Proof.
  intros H0 H1 Hy Hz Ht. unfold stepTotal, chooseMethod. split.
  - intros H.
    destruct (int_add a1 a0) eqn:E1; [|done].
    apply int_add_Some in E1 as [-> ?]. cbn [mbind option_bind] in H.
    destruct (int_add _ z) eqn:E2; [|done].
    apply int_add_Some in E2 as [-> ?]. cbn [mbind option_bind] in H.
    destruct (int_add _ a1) eqn:E3; [|done].
    apply int_add_Some in E3 as [-> ?]. cbn [mbind option_bind] in H.
    destruct (int_add z a0) eqn:E4; [|done].
    apply int_add_Some in E4 as [-> ?]. cbn [mbind option_bind] in H.
    destruct (int_add _ y) eqn:E5; [|done].
    apply int_add_Some in E5 as [-> ?]. cbn [mbind option_bind] in H.
    destruct (int_add _ a0) eqn:E6; [|done].
    apply int_add_Some in E6 as [-> ?]. cbn [mbind option_bind] in H.
    destruct (Z.ltb_spec (a1 + a0 + z + a1) (z + a0 + y + a0));
      apply int_add_Some in H as [-> ?]; lia.
  - intros (HS & HN & -> & Hfit).
    fit a1 a0. fit (a1 + a0) z. fit (a1 + a0 + z) a1.
    fit z a0. fit (z + a0) y. fit (z + a0 + y) a0.
    destruct (Z.ltb_spec (a1 + a0 + z + a1) (z + a0 + y + a0)).
    + fit t (a1 + a0 + z + a1). f_equal. lia.
    + fit t (z + a0 + y + a0). f_equal. lia.
Qed.

Lemma iteration_Some p0 p1 m y z t out t' :
  stepTotal (getSpeed p0) (getSpeed p1) (getSpeed y) (getSpeed z) t = Some t' ↔
  ∃ out', iteration (p0 :: p1 :: m ++ [y; z]) t out = Some (t', out').
Proof.
  rewrite <- (iteration_total p0 p1 m y z t out).
  destruct (iteration _ _ _) as [[t0 o0]|]; simpl; split.
  - intros [= ->]. eauto.
  - intros [o [= -> ->]]. done.
  - done.
  - intros [o [=]].
Qed.

Lemma baseCases_0 t out :
  baseCases [] t out = t' ← int_add t 0; Some (t', out, []).
Proof. reflexivity. Qed.

Lemma baseCases_1 a t out :
  baseCases [a] t out =
  t' ← int_add t (getSpeed a); Some (t', out ++ [CrossOne a], []).
Proof. reflexivity. Qed.

Lemma baseCases_2 a b t out :
  baseCases [a; b] t out =
  t' ← int_add t (getSpeed b); Some (t', out ++ [CrossTwo b a], []).
Proof. reflexivity. Qed.

Lemma baseCases_3 a b c t out :
  baseCases [a; b; c] t out =
  s ← int_add (getSpeed a) (getSpeed b);
  s ← int_add s (getSpeed c);
  t' ← int_add t s;
  Some (t', out ++ [CrossTwo c a; Returns a; CrossTwo b a], []).
Proof. reflexivity. Qed.

Lemma short_roster (w : list Person) :
  (length w < 4)%nat →
  w = [] ∨ (∃ a, w = [a]) ∨ (∃ a b, w = [a; b]) ∨ (∃ a b c, w = [a; b; c]).
Proof.
  destruct w as [|a [|b [|c [|d w]]]]; simpl; intros; try lia; eauto 10.
Qed.

(** The loop and the base cases together always empty the vector. *)
Lemma optimalRun_empties w : ∀ t out t' out' w',
  optimalRun w t out = Some (t', out', w') → w' = [].
Proof.
  induction w as [w Hlen|p0 p1 m y z IH] using roster_loop_ind;
    intros t out t' out' w' Hrun.
  - rewrite optimalRun_base in Hrun by done.
    destruct (short_roster w Hlen)
      as [->|[[a ->]|[(a & b & ->)|(a & b & c & ->)]]].
    + rewrite baseCases_0 in Hrun. int_adds Hrun. congruence.
    + rewrite baseCases_1 in Hrun. int_adds Hrun. congruence.
    + rewrite baseCases_2 in Hrun. int_adds Hrun. congruence.
    + rewrite baseCases_3 in Hrun. int_adds Hrun. congruence.
  - rewrite optimalRun_step in Hrun.
    destruct (iteration _ _ _) as [[t1 out1]|]; [|done].
    cbn [mbind option_bind] in Hrun. eauto.
Qed.

Lemma sorted_minSpeed p w :
  StronglySorted speed_le (p :: w) → getSpeed p ≤ INT_MAX →
  minSpeed (p :: w) = getSpeed p.
Proof.
  intros Hs Hp. apply minSpeed_least; [done|apply list_elem_of_here|].
  apply StronglySorted_inv in Hs as [_ Hall]. by constructor.
Qed.

Lemma sorted_shape p0 p1 m y z :
  StronglySorted speed_le (p0 :: p1 :: m ++ [y; z]) →
  StronglySorted speed_le (p0 :: p1 :: m) ∧
  getSpeed p0 ≤ getSpeed p1 ∧ getSpeed p1 ≤ getSpeed y ∧
  getSpeed y ≤ getSpeed z.
Proof.
  intros Hs.
  change (p0 :: p1 :: m ++ [y; z]) with ((p0 :: p1 :: m) ++ [y; z]) in Hs.
  apply StronglySorted_app in Hs as (Hlr & Hl & Hr).
  split; [done|].
  apply StronglySorted_inv in Hl as [_ Hl].
  apply StronglySorted_inv in Hr as [_ Hr].
  apply Forall_cons_1 in Hl as [Hl _]. apply Forall_cons_1 in Hr as [Hr _].
  repeat split; try done.
  apply Hlr; [|apply list_elem_of_here].
  apply list_elem_of_further, list_elem_of_here.
Qed.

Lemma valid_shape p0 p1 m y z :
  valid_roster (p0 :: p1 :: m ++ [y; z]) →
  valid_roster (p0 :: p1 :: m) ∧ valid_person y ∧ valid_person z.
Proof.
  intros Hv.
  change (p0 :: p1 :: m ++ [y; z]) with ((p0 :: p1 :: m) ++ [y; z]) in Hv.
  apply Forall_app in Hv as [Hl Hr]. split; [done|].
  apply Forall_cons_1 in Hr as [Hy Hr].
  apply Forall_cons_1 in Hr as [Hz _]. done.
Qed.

Lemma naiveCost_shape p0 p1 m y z :
  StronglySorted speed_le (p0 :: p1 :: m ++ [y; z]) →
  getSpeed p0 ≤ INT_MAX →
  naiveCost (p0 :: p1 :: m ++ [y; z]) =
  naiveCost (p0 :: p1 :: m) + getSpeed y + getSpeed z + 2 * getSpeed p0.
Proof.
  intros Hs Hp0. unfold naiveCost.
  rewrite (sorted_minSpeed _ _ Hs Hp0).
  apply sorted_shape in Hs as [Hs _].
  rewrite (sorted_minSpeed _ _ Hs Hp0).
  change (p0 :: p1 :: m ++ [y; z]) with ((p0 :: p1 :: m) ++ [y; z]).
  rewrite speedSum_app, length_app. simpl speedSum. simpl length. lia.
Qed.

(** On a sorted roster the shielding solver stays within the naive cost. *)
Lemma optimalRun_bound w :
  StronglySorted speed_le w → valid_roster w → (2 ≤ length w)%nat →
  ∀ t out, 0 ≤ t → t + naiveCost w ≤ INT_MAX →
  ∃ t' out', optimalRun w t out = Some (t', out', []) ∧
             t ≤ t' ≤ t + naiveCost w.
Proof.
  induction w as [w Hlen|p0 p1 m y z IH] using roster_loop_ind;
    intros Hs Hv Hlen2 t out Ht Hfit.
  - rewrite optimalRun_base by done.
    destruct (short_roster w Hlen)
      as [->|[[a ->]|[(a & b & ->)|(a & b & c & ->)]]];
      simpl in Hlen2; try lia.
    + apply Forall_cons_1 in Hv as [[Ha0 Ha1] Hv].
      apply Forall_cons_1 in Hv as [[Hb0 Hb1] _].
      apply StronglySorted_inv in Hs as [_ Hab].
      apply Forall_cons_1 in Hab as [Hab _]. unfold speed_le in Hab.
      unfold naiveCost in *. simpl in Hfit |- *.
      rewrite baseCases_2, int_add_fits by (unfold INT_MIN; lia).
      eexists _, _. split; [done|]. lia.
    + apply Forall_cons_1 in Hv as [[Ha0 Ha1] Hv].
      apply Forall_cons_1 in Hv as [[Hb0 Hb1] Hv].
      apply Forall_cons_1 in Hv as [[Hc0 Hc1] _].
      unfold naiveCost in *. simpl in Hfit |- *.
      rewrite baseCases_3.
      rewrite (int_add_fits (getSpeed a)) by (unfold INT_MIN; lia).
      cbn [mbind option_bind].
      rewrite (int_add_fits _ (getSpeed c)) by (unfold INT_MIN; lia).
      cbn [mbind option_bind].
      rewrite int_add_fits by (unfold INT_MIN; lia).
      eexists _, _. split; [done|]. lia.
  - pose proof (sorted_shape _ _ _ _ _ Hs) as (Hs' & H01 & H1y & Hyz).
    pose proof (valid_shape _ _ _ _ _ Hv) as (Hv' & [Hy0 Hy1] & [Hz0 Hz1]).
    pose proof Hv' as Hv2.
    apply Forall_cons_1 in Hv2 as [[Ha0 Ha1] Hv2].
    apply Forall_cons_1 in Hv2 as [[Hb0 Hb1] Hm].
    rewrite naiveCost_shape in Hfit |- * by done.
    assert (Hc : getSpeed p0 + getSpeed p1 - getSpeed p0
                 ≤ naiveCost (p0 :: p1 :: m)).
    { unfold naiveCost. rewrite (sorted_minSpeed _ _ Hs' Ha1).
      apply valid_roster_nonneg, speedSum_nonneg in Hm.
      simpl speedSum. simpl length. nia. }
    set (c := Z.min (2 * getSpeed p1 + getSpeed p0 + getSpeed z)
                    (getSpeed z + getSpeed y + 2 * getSpeed p0)).
    assert (Hstep : stepTotal (getSpeed p0) (getSpeed p1) (getSpeed y)
                      (getSpeed z) t = Some (t + c)).
    { apply stepTotal_Some; try lia. }
    apply (iteration_Some p0 p1 m y z t out) in Hstep as [out1 Hit].
    rewrite optimalRun_step, Hit. cbn [mbind option_bind].
    destruct (IH Hs' Hv' ltac:(simpl; lia) (t + c) out1)
      as (t' & out' & Hrun & Hb); [lia|lia|].
    exists t', out'. split; [done|]. lia.
Qed.

Lemma Forall2_shape {A} (R : A → Person → Prop) p0 p1 m y z v :
  Forall2 R (p0 :: p1 :: m ++ [y; z]) v →
  ∃ q0 q1 m' y' z',
    v = q0 :: q1 :: m' ++ [y'; z'] ∧
    R p0 q0 ∧ R p1 q1 ∧ Forall2 R m m' ∧ R y y' ∧ R z z'.
Proof.
  intros H.
  apply Forall2_cons_inv_l in H as (q0 & v0 & H0 & H & ->).
  apply Forall2_cons_inv_l in H as (q1 & v1 & H1 & H & ->).
  apply Forall2_app_inv_l in H as (m' & k & Hm & H & ->).
  apply Forall2_cons_inv_l in H as (y' & v2 & Hy & H & ->).
  apply Forall2_cons_inv_l in H as (z' & v3 & Hz & H & ->).
  apply Forall2_nil_inv_l in H as ->.
  eauto 12.
Qed.

Lemma Forall2_short {A} (R : A → Person → Prop) (w : list A) v :
  Forall2 R w v → (length w < 4)%nat → (length v < 4)%nat.
Proof. intros H. by rewrite (Forall2_length _ _ _ H). Qed.

(** Slowing people down, position by position, cannot make the run cheaper;
    and a run that is defined stays defined when people get faster. *)
Lemma optimalRun_mono w : ∀ v,
  Forall2 speed_le w v → Forall (λ p, 0 ≤ getSpeed p) w →
  ∀ t t' out out2 r o w',
    0 ≤ t ≤ t' → optimalRun v t' out = Some (r, o, w') →
    ∃ r0 o0, optimalRun w t out2 = Some (r0, o0, []) ∧ t ≤ r0 ≤ r.
Proof.
  induction w as [w Hlen|p0 p1 m y z IH] using roster_loop_ind;
    intros v HR Hnn t t' out out2 r o w' Ht Hrun.
  - rewrite optimalRun_base in Hrun by (by eapply Forall2_short).
    rewrite optimalRun_base by done.
    destruct (short_roster w Hlen)
      as [->|[[a ->]|[(a & b & ->)|(a & b & c & ->)]]].
    + apply Forall2_nil_inv_l in HR as ->.
      rewrite baseCases_0 in Hrun. int_adds Hrun. injection Hrun as <- <- <-.
      rewrite baseCases_0, int_add_fits by (unfold INT_MIN; lia).
      eexists _, _. split; [done|]. lia.
    + apply Forall2_cons_inv_l in HR as (a' & ? & Ha & HR & ->).
      apply Forall2_nil_inv_l in HR as ->. unfold speed_le in Ha.
      apply Forall_cons_1 in Hnn as [Ha0 _].
      rewrite baseCases_1 in Hrun. int_adds Hrun. injection Hrun as <- <- <-.
      rewrite baseCases_1, int_add_fits by (unfold INT_MIN; lia).
      eexists _, _. split; [done|]. lia.
    + apply Forall2_cons_inv_l in HR as (a' & ? & Ha & HR & ->).
      apply Forall2_cons_inv_l in HR as (b' & ? & Hb & HR & ->).
      apply Forall2_nil_inv_l in HR as ->. unfold speed_le in Ha, Hb.
      apply Forall_cons_1 in Hnn as [Ha0 Hnn].
      apply Forall_cons_1 in Hnn as [Hb0 _].
      rewrite baseCases_2 in Hrun. int_adds Hrun. injection Hrun as <- <- <-.
      rewrite baseCases_2, int_add_fits by (unfold INT_MIN; lia).
      eexists _, _. split; [done|]. lia.
    + apply Forall2_cons_inv_l in HR as (a' & ? & Ha & HR & ->).
      apply Forall2_cons_inv_l in HR as (b' & ? & Hb & HR & ->).
      apply Forall2_cons_inv_l in HR as (c' & ? & Hc & HR & ->).
      apply Forall2_nil_inv_l in HR as ->. unfold speed_le in Ha, Hb, Hc.
      apply Forall_cons_1 in Hnn as [Ha0 Hnn].
      apply Forall_cons_1 in Hnn as [Hb0 Hnn].
      apply Forall_cons_1 in Hnn as [Hc0 _].
      rewrite baseCases_3 in Hrun. int_adds Hrun. injection Hrun as <- <- <-.
      rewrite baseCases_3.
      rewrite (int_add_fits (getSpeed a)) by (unfold INT_MIN; lia).
      cbn [mbind option_bind].
      rewrite (int_add_fits _ (getSpeed c)) by (unfold INT_MIN; lia).
      cbn [mbind option_bind].
      rewrite int_add_fits by (unfold INT_MIN; lia).
      eexists _, _. split; [done|]. lia.
  - apply Forall2_shape in HR
      as (q0 & q1 & m' & y' & z' & -> & H0 & H1 & Hm & Hy & Hz).
    unfold speed_le in H0, H1, Hy, Hz.
    change (p0 :: p1 :: m ++ [y; z]) with ((p0 :: p1 :: m) ++ [y; z]) in Hnn.
    apply Forall_app in Hnn as [Hnn' Hyz].
    apply Forall_cons_1 in Hyz as [Hy0 Hyz].
    apply Forall_cons_1 in Hyz as [Hz0 _].
    pose proof Hnn' as Hnn2.
    apply Forall_cons_1 in Hnn2 as [Hp0 Hnn2].
    apply Forall_cons_1 in Hnn2 as [Hp1 _].
    rewrite optimalRun_step in Hrun.
    destruct (iteration _ _ _) as [[t1' out1']|] eqn:Hit; [|done].
    cbn [mbind option_bind] in Hrun.
    assert (Hst' : stepTotal (getSpeed q0) (getSpeed q1) (getSpeed y')
                     (getSpeed z') t' = Some t1').
    { apply (iteration_Some q0 q1 m' y' z' t' out). eauto. }
    apply stepTotal_Some in Hst' as (HS & HN & -> & Hfit); try lia.
    set (c := Z.min (2 * getSpeed p1 + getSpeed p0 + getSpeed z)
                    (getSpeed z + getSpeed y + 2 * getSpeed p0)).
    assert (Hst : stepTotal (getSpeed p0) (getSpeed p1) (getSpeed y)
                    (getSpeed z) t = Some (t + c)).
    { apply stepTotal_Some; try lia. }
    apply (iteration_Some p0 p1 m y z t out2) in Hst as [out1 Hit1].
    rewrite optimalRun_step, Hit1. cbn [mbind option_bind].
    assert (Hrange : 0 ≤ t + c ≤
              t' + Z.min (2 * getSpeed q1 + getSpeed q0 + getSpeed z')
                         (getSpeed z' + getSpeed y' + 2 * getSpeed q0)) by lia.
    destruct (IH (q0 :: q1 :: m') ltac:(by repeat constructor) Hnn'
                _ _ _ out1 _ _ _ Hrange Hrun)
      as (r0 & o0 & Hrun0 & Hb).
    exists r0, o0. split; [done|]. lia.
Qed.

(** The total depends on the speeds alone, not on who has them. *)
Lemma optimalRun_speeds w : ∀ v,
  speeds w = speeds v →
  ∀ t out out2 r o w',
    optimalRun w t out = Some (r, o, w') →
    ∃ o2, optimalRun v t out2 = Some (r, o2, []).
Proof.
  intros v Heq.
  assert (HR : Forall2 (λ p q, getSpeed p = getSpeed q) w v).
  { apply (Forall2_fmap getSpeed getSpeed eq). unfold speeds in Heq.
    rewrite Heq. by apply Forall_Forall2_diag, Forall_true. }
  clear Heq. revert v HR.
  induction w as [w Hlen|p0 p1 m y z IH] using roster_loop_ind;
    intros v HR t out out2 r o w' Hrun.
  - rewrite optimalRun_base in Hrun by done.
    rewrite optimalRun_base by (by eapply Forall2_short).
    destruct (short_roster w Hlen)
      as [->|[[a ->]|[(a & b & ->)|(a & b & c & ->)]]].
    + apply Forall2_nil_inv_l in HR as ->.
      rewrite baseCases_0 in Hrun |- *.
      destruct (int_add t 0); [|done]. injection Hrun as <- <- <-. eauto.
    + apply Forall2_cons_inv_l in HR as (a' & ? & Ha & HR & ->).
      apply Forall2_nil_inv_l in HR as ->.
      rewrite baseCases_1 in Hrun |- *. rewrite <- Ha.
      destruct (int_add _ _); [|done]. injection Hrun as <- <- <-. eauto.
    + apply Forall2_cons_inv_l in HR as (a' & ? & Ha & HR & ->).
      apply Forall2_cons_inv_l in HR as (b' & ? & Hb & HR & ->).
      apply Forall2_nil_inv_l in HR as ->.
      rewrite baseCases_2 in Hrun |- *. rewrite <- Hb.
      destruct (int_add _ _); [|done]. injection Hrun as <- <- <-. eauto.
    + apply Forall2_cons_inv_l in HR as (a' & ? & Ha & HR & ->).
      apply Forall2_cons_inv_l in HR as (b' & ? & Hb & HR & ->).
      apply Forall2_cons_inv_l in HR as (c' & ? & Hc & HR & ->).
      apply Forall2_nil_inv_l in HR as ->.
      rewrite baseCases_3 in Hrun |- *. rewrite <- Ha, <- Hb, <- Hc.
      destruct (int_add _ _); [|done]. cbn [mbind option_bind] in Hrun |- *.
      destruct (int_add _ _); [|done]. cbn [mbind option_bind] in Hrun |- *.
      destruct (int_add _ _); [|done]. injection Hrun as <- <- <-. eauto.
  - apply Forall2_shape in HR
      as (q0 & q1 & m' & y' & z' & -> & H0 & H1 & Hm & Hy & Hz).
    rewrite optimalRun_step in Hrun.
    destruct (iteration _ _ _) as [[t1 out1]|] eqn:Hit; [|done].
    cbn [mbind option_bind] in Hrun.
    assert (Hst : stepTotal (getSpeed p0) (getSpeed p1) (getSpeed y)
                    (getSpeed z) t = Some t1).
    { apply (iteration_Some p0 p1 m y z t out). eauto. }
    rewrite H0, H1, Hy, Hz in Hst.
    apply (iteration_Some q0 q1 m' y' z' t out2) in Hst as [out1' Hit'].
    rewrite optimalRun_step, Hit'. cbn [mbind option_bind].
    eapply IH; [|exact Hrun]. by repeat constructor.
Qed.

(** ** Sorting respects the pointwise order *)

Lemma sort_insert_under x m : ∀ m' q',
  Forall2 speed_le m m' → speed_le x q' → StronglySorted speed_le (q' :: m') →
  Forall2 speed_le (sort_insert x m) (q' :: m').
Proof.
  induction m as [|u m IH]; intros m' q' HR Hx Hs.
  - apply Forall2_nil_inv_l in HR as ->. by repeat constructor.
  - apply Forall2_cons_inv_l in HR as (u' & m1' & Hu & HR & ->).
    apply StronglySorted_inv in Hs as [Hs Hq'].
    apply Forall_cons_1 in Hq' as [Hq'u _].
    unfold speed_le in *. simpl. unfold Person_lt.
    destruct (Z.ltb_spec (getSpeed u) (getSpeed x)).
    + constructor; [lia|]. apply IH; [done|unfold speed_le; lia|done].
    + constructor; [done|]. by constructor.
Qed.

Lemma sort_insert_over x' m' : ∀ m q,
  Forall2 speed_le m m' → speed_le q x' → StronglySorted speed_le (q :: m) →
  Forall2 speed_le (q :: m) (sort_insert x' m').
Proof.
  induction m' as [|u' m' IH]; intros m q HR Hx Hs.
  - apply Forall2_nil_inv_r in HR as ->. by repeat constructor.
  - apply Forall2_cons_inv_r in HR as (u & m1 & Hu & HR & ->).
    apply StronglySorted_inv in Hs as [Hs Hq].
    apply Forall_cons_1 in Hq as [Hqu _].
    unfold speed_le in *. simpl. unfold Person_lt.
    destruct (Z.ltb_spec (getSpeed u') (getSpeed x')).
    + constructor; [lia|]. apply IH; [done|unfold speed_le; lia|done].
    + constructor; [done|]. by constructor.
Qed.

Lemma sort_insert_mono x x' l l' :
  speed_le x x' → Forall2 speed_le l l' →
  StronglySorted speed_le l → StronglySorted speed_le l' →
  Forall2 speed_le (sort_insert x l) (sort_insert x' l').
Proof.
  intros Hx HR. revert x x' Hx.
  induction HR as [|q q' m m' Hq HR IH]; intros x x' Hx Hs Hs'.
  - by repeat constructor.
  - simpl. unfold Person_lt.
    pose proof (StronglySorted_inv Hs) as [Hm _].
    pose proof (StronglySorted_inv Hs') as [Hm' _].
    unfold speed_le in Hx, Hq.
    destruct (Z.ltb_spec (getSpeed q) (getSpeed x));
      destruct (Z.ltb_spec (getSpeed q') (getSpeed x')).
    + constructor; [done|]. by apply IH.
    + constructor; [unfold speed_le; lia|].
      apply sort_insert_under; [done|unfold speed_le; lia|done].
    + constructor; [unfold speed_le; lia|].
      apply sort_insert_over; [done|unfold speed_le; lia|done].
    + constructor; [done|]. by constructor.
Qed.

Lemma std_sort_mono l l' :
  Forall2 speed_le l l' → Forall2 speed_le (std_sort l) (std_sort l').
Proof.
  induction 1; simpl; [constructor|].
  apply sort_insert_mono; auto using std_sort_sorted.
Qed.

Lemma insert_speed_le (w : list Person) : ∀ (i : nat) p p',
  w !! i = Some p → speed_le p p' → Forall2 speed_le w (<[i:=p']> w).
Proof.
  induction w as [|a w IH]; intros i p p' Hi Hp; [done|].
  destruct i as [|i]; simpl in *.
  - injection Hi as ->. constructor; [done|].
    by apply Forall_Forall2_diag, Forall_true.
  - constructor; [done|]. by eapply IH.
Qed.

Lemma speedSum_mono w v : Forall2 speed_le w v → speedSum w ≤ speedSum v.
Proof. induction 1 as [|???? H]; simpl; [lia|]. unfold speed_le in H. lia. Qed.

Lemma minSpeed_mono w v : Forall2 speed_le w v → minSpeed w ≤ minSpeed v.
Proof. induction 1 as [|???? H]; simpl; [lia|]. unfold speed_le in H. lia. Qed.

Lemma naiveCost_mono w v :
  Forall2 speed_le w v → (2 ≤ length w)%nat →
  Forall (λ p, getSpeed p ≤ INT_MAX) w → Forall (λ p, getSpeed p ≤ INT_MAX) v →
  0 ≤ minSpeed w →
  naiveCost w ≤ naiveCost v.
Proof.
  intros HR Hlen Hw Hv Hpos. unfold naiveCost.
  pose proof (speedSum_mono _ _ HR) as Hsum.
  pose proof (minSpeed_mono _ _ HR) as Hmin.
  rewrite <- (Forall2_length _ _ _ HR).
  destruct (decide (3 ≤ length w)%nat) as [H3|H3]; [nia|].
  destruct w as [|a [|b [|c w]]]; simpl in Hlen, H3; try lia.
  apply Forall2_cons_inv_l in HR as (a' & ? & Ha & HR & ->).
  apply Forall2_cons_inv_l in HR as (b' & ? & Hb & HR & ->).
  apply Forall2_nil_inv_l in HR as ->. unfold speed_le in Ha, Hb.
  apply Forall_cons_1 in Hw as [? Hw]. apply Forall_cons_1 in Hw as [? _].
  apply Forall_cons_1 in Hv as [? Hv]. apply Forall_cons_1 in Hv as [? _].
  simpl. lia.
Qed.

(** ** The solvers as a whole *)

Lemma crossOptimally_eq b :
  crossOptimally b =
  '(t, out, w) ← optimalRun (std_sort (waitingPeople b)) 0 optimalHeader;
  Some (t, out, mkBridge w).
Proof.
  unfold crossOptimally, optimalRun, optimalHeader.
  destruct (optimalLoop _ _ _) as [[[t out] w]|]; [|done].
  cbn [mbind option_bind]. by destruct (baseCases _ _ _) as [[[]]|].
Qed.

Lemma crossOptimally_Some b t out b' :
  crossOptimally b = Some (t, out, b') ↔
  optimalRun (std_sort (waitingPeople b)) 0 optimalHeader = Some (t, out, []) ∧
  b' = mkBridge [].
Proof.
  rewrite crossOptimally_eq.
  destruct (optimalRun _ _ _) as [[[t0 out0] w0]|] eqn:Hrun;
    cbn [mbind option_bind].
  - pose proof (optimalRun_empties _ _ _ _ _ _ Hrun) as ->.
    split.
    + intros [= -> -> <-]. done.
    + intros [[= -> ->] ->]. done.
  - split; [done|]. intros [[=] _].
Qed.

Lemma valid_roster_max w :
  valid_roster w → Forall (λ p, getSpeed p ≤ INT_MAX) w.
Proof. intros H. eapply Forall_impl; [exact H|]. by intros p [? ?]. Qed.

(** Room for both solvers: twice the sum of the speeds fits in an [int]. *)
Lemma solvers_defined b :
  valid_roster (waitingPeople b) → 2 * speedSum (waitingPeople b) ≤ INT_MAX →
  is_Some (crossNaively b) ∧ is_Some (crossOptimally b).
Proof.
  destruct b as [w]. simpl. intros Hv Hfit.
  pose proof (valid_roster_nonneg _ Hv) as Hnn.
  destruct (decide (2 ≤ length w)%nat) as [Hlen|Hlen].
  - pose proof (minSpeed_pos _ Hv) as Hpos.
    pose proof (speedSum_lower _ _ (minSpeed_lower w)) as Hlow.
    assert (Hc : naiveCost w ≤ INT_MAX) by (unfold naiveCost; nia).
    assert (Hm : minSpeed w < INT_MAX) by nia.
    split.
    + destruct (crossNaively_defined (mkBridge w)) as [out ->]; eauto.
    + destruct (optimalRun_bound (std_sort w))
        with (t := 0) (out := optimalHeader) as (t' & out' & Hrun & _).
      * apply std_sort_sorted.
      * eapply valid_roster_perm; [symmetry; apply std_sort_perm|done].
      * by rewrite std_sort_length.
      * done.
      * unfold naiveCost in *.
        rewrite std_sort_length, (speedSum_perm _ _ (std_sort_perm w)),
          (minSpeed_perm _ _ (std_sort_perm w)). lia.
      * rewrite crossOptimally_eq. simpl. rewrite Hrun. simpl. eauto.
  - destruct w as [|a [|b w]]; simpl in Hlen; try lia.
    + split; [by eexists|]. by eexists.
    + apply Forall_cons_1 in Hv as [[Ha0 Ha1] _].
      split; [by eexists|].
      rewrite crossOptimally_eq. simpl std_sort.
      rewrite optimalRun_base by (simpl; lia).
      rewrite baseCases_1, int_add_fits by (unfold INT_MIN; simpl in *; lia).
      by eexists.
Qed.

(** ** Totals as functions of the multiset of speeds *)

Lemma speedSum_speeds w : speedSum w = foldr Z.add 0 (speeds w).
Proof. induction w as [|p w IH]; simpl; [done|]. by rewrite IH. Qed.

Lemma minSpeed_speeds w : minSpeed w = foldr Z.min INT_MAX (speeds w).
Proof. induction w as [|p w IH]; simpl; [done|]. by rewrite IH. Qed.

Lemma speedSum_speeds_perm w v : speeds w ≡ₚ speeds v → speedSum w = speedSum v.
Proof.
  rewrite !speedSum_speeds. generalize (speeds w) (speeds v).
  induction 1; simpl; lia.
Qed.

Lemma minSpeed_speeds_perm w v : speeds w ≡ₚ speeds v → minSpeed w = minSpeed v.
Proof.
  rewrite !minSpeed_speeds. generalize (speeds w) (speeds v).
  induction 1; simpl; lia.
Qed.

Lemma length_speeds_perm w v : speeds w ≡ₚ speeds v → length w = length v.
Proof.
  intros H. apply Permutation_length in H. unfold speeds in H.
  by rewrite !length_fmap in H.
Qed.

Lemma naiveCost_speeds_perm w v :
  speeds w ≡ₚ speeds v → naiveCost w = naiveCost v.
Proof.
  intros H. unfold naiveCost.
  by rewrite (speedSum_speeds_perm _ _ H), (minSpeed_speeds_perm _ _ H),
    (length_speeds_perm _ _ H).
Qed.

Lemma valid_roster_speeds_perm w v :
  speeds w ≡ₚ speeds v → valid_roster w → valid_roster v.
Proof.
  intros H Hw.
  apply (Forall_fmap getSpeed (λ s, 0 < s ≤ INT_MAX)).
  apply (Forall_fmap getSpeed (λ s, 0 < s ≤ INT_MAX)) in Hw.
  fold (speeds w) in Hw. fold (speeds v). by rewrite <- H.
Qed.

Lemma speeds_perm w v : w ≡ₚ v → speeds w ≡ₚ speeds v.
Proof. intros H. unfold speeds. by rewrite H. Qed.

Lemma sorted_speeds_perm_unique w v :
  StronglySorted speed_le w → StronglySorted speed_le v →
  speeds w ≡ₚ speeds v → speeds w = speeds v.
Proof.
  intros Hw Hv Hp. unfold speeds in *.
  apply (StronglySorted_unique Z.le); [| |done].
  - eapply StronglySorted_fmap; [|exact Hw]. auto.
  - eapply StronglySorted_fmap; [|exact Hv]. auto.
Qed.

(** The naive total in closed form. *)
Lemma crossNaively_total w :
  valid_roster w → (2 ≤ length w)%nat →
  totalOf (crossNaively (mkBridge w)) =
  if decide (minSpeed w < INT_MAX ∧ naiveCost w ≤ INT_MAX)
  then Some (naiveCost w) else None.
Proof.
  intros Hv Hlen. destruct (decide _) as [[Hm Hc]|Hno].
  - destruct (crossNaively_defined (mkBridge w)) as [out ->]; done.
  - destruct (crossNaively (mkBridge w)) as [[[t out] b']|] eqn:Hrun; [|done].
    apply crossNaively_cost in Hrun as (-> & ? & ?);
      [tauto|done|by apply valid_roster_max].
Qed.

Lemma crossNaively_speeds w v :
  valid_roster w → speeds w ≡ₚ speeds v →
  totalOf (crossNaively (mkBridge w)) = totalOf (crossNaively (mkBridge v)).
Proof.
  intros Hv Hp.
  pose proof (length_speeds_perm _ _ Hp) as Hlen.
  destruct (decide (2 ≤ length w)%nat) as [H2|H2].
  - rewrite !crossNaively_total;
      [|by eapply valid_roster_speeds_perm|lia|done|done].
    by rewrite (minSpeed_speeds_perm _ _ Hp), (naiveCost_speeds_perm _ _ Hp).
  - destruct w as [|a [|b w]]; simpl in H2; try lia.
    + by destruct v.
    + destruct v as [|a' [|b' v]]; simpl in Hlen; try lia.
      apply Permutation_singleton_l in Hp. simpl in Hp.
      injection Hp as Hp. unfold crossNaively. simpl. by rewrite Hp.
Qed.

Lemma crossOptimally_speeds w v :
  speeds w ≡ₚ speeds v →
  totalOf (crossOptimally (mkBridge w)) = totalOf (crossOptimally (mkBridge v)).
Proof.
  intros Hp.
  assert (Heq : speeds (std_sort w) = speeds (std_sort v)).
  { apply sorted_speeds_perm_unique; try apply std_sort_sorted.
    by rewrite (speeds_perm _ _ (std_sort_perm w)),
      (speeds_perm _ _ (std_sort_perm v)). }
  destruct (crossOptimally (mkBridge w)) as [[[t out] b']|] eqn:Hw;
    destruct (crossOptimally (mkBridge v)) as [[[t2 out2] b2]|] eqn:Hv;
    simpl; try done.
  - apply crossOptimally_Some in Hw as [Hw _].
    apply crossOptimally_Some in Hv as [Hv _]. simpl in Hw, Hv.
    destruct (optimalRun_speeds _ _ Heq _ _ optimalHeader _ _ _ Hw) as [o2 Hv'].
    congruence.
  - apply crossOptimally_Some in Hw as [Hw _]. simpl in Hw.
    destruct (optimalRun_speeds _ _ Heq _ _ optimalHeader _ _ _ Hw) as [o2 Hv'].
    assert (crossOptimally (mkBridge v) = Some (t, o2, mkBridge [])) as Hv2
      by (by apply crossOptimally_Some).
    congruence.
  - apply crossOptimally_Some in Hv as [Hv _]. simpl in Hv.
    symmetry in Heq.
    destruct (optimalRun_speeds _ _ Heq _ _ optimalHeader _ _ _ Hv) as [o2 Hw'].
    assert (crossOptimally (mkBridge w) = Some (t2, o2, mkBridge [])) as Hw2
      by (by apply crossOptimally_Some).
    congruence.
Qed.

(** Any sort that orders by speed gives the total of the modelled one. *)
Lemma any_sort_same_total b v :
  StronglySorted speed_le v → v ≡ₚ waitingPeople b →
  totalOf (optimalRun v 0 optimalHeader) = totalOf (crossOptimally b).
Proof.
  intros Hs Hp.
  assert (Heq : speeds v = speeds (std_sort (waitingPeople b))).
  { apply sorted_speeds_unique; [done|apply std_sort_sorted|].
    by rewrite std_sort_perm. }
  rewrite crossOptimally_eq.
  destruct (optimalRun v 0 optimalHeader) as [[[t out] w']|] eqn:Hv;
    destruct (optimalRun (std_sort _) 0 optimalHeader)
      as [[[t2 out2] w2]|] eqn:Hw;
    simpl; try done.
  - destruct (optimalRun_speeds _ _ Heq _ _ optimalHeader _ _ _ Hv) as [o2 Hv'].
    congruence.
  - destruct (optimalRun_speeds _ _ Heq _ _ optimalHeader _ _ _ Hv) as [o2 Hv'].
    congruence.
  - symmetry in Heq.
    destruct (optimalRun_speeds _ _ Heq _ _ optimalHeader _ _ _ Hw) as [o2 Hv'].
    congruence.
Qed.

(** The loop leaves a front part of the vector it was given. *)
Lemma optimalLoop_prefix w : ∀ t out t' out' w',
  optimalLoop w t out = Some (t', out', w') →
  (length w' < 4)%nat ∧ ∃ rest, w = w' ++ rest.
Proof.
  induction w as [w Hlen|p0 p1 m y z IH] using roster_loop_ind;
    intros t out t' out' w' Hrun; rewrite optimalLoop_eq in Hrun.
  - rewrite decide_False in Hrun by lia. injection Hrun as <- <- <-.
    split; [done|]. exists []. by rewrite app_nil_r.
  - rewrite decide_True in Hrun by (simpl; rewrite length_app; simpl; lia).
    rewrite shape_pop_back in Hrun.
    destruct (iteration _ _ _) as [[t1 out1]|]; [|done].
    cbn [mbind option_bind] in Hrun.
    apply IH in Hrun as [Hlen [rest Hrest]]. split; [done|].
    exists (rest ++ [y; z]).
    change (p0 :: p1 :: m ++ [y; z]) with ((p0 :: p1 :: m) ++ [y; z]).
    by rewrite Hrest, <- app_assoc.
Qed.

Lemma valid_classic : valid_roster (waitingPeople classic).
Proof. repeat constructor; unfold INT_MAX; simpl; lia. Qed.

(** * The claims *)

(** C1.  For every roster of people with positive [int] speeds on which the
    naive solver returns a total, the shielding solver returns a total as
    well, and it is at most the naive one. *)
Theorem optimal_le_naive b tn outn bn :
  valid_roster (waitingPeople b) →
  crossNaively b = Some (tn, outn, bn) →
  ∃ to outo bo, crossOptimally b = Some (to, outo, bo) ∧ to ≤ tn.
Proof.
  destruct b as [w]. simpl. intros Hv Hn.
  destruct (decide (2 ≤ length w)%nat) as [Hlen|Hlen].
  - apply crossNaively_cost in Hn as (-> & Hfit & _);
      [|done|by apply valid_roster_max]. simpl in Hfit |- *.
    pose proof (std_sort_perm w) as Hp.
    destruct (optimalRun_bound (std_sort w))
      with (t := 0) (out := optimalHeader) as (t' & out' & Hrun & Hb).
    + apply std_sort_sorted.
    + eapply valid_roster_perm; [symmetry; exact Hp|done].
    + by rewrite std_sort_length.
    + done.
    + rewrite (naiveCost_speeds_perm _ w) by (by apply speeds_perm). lia.
    + rewrite (naiveCost_speeds_perm _ w) in Hb by (by apply speeds_perm).
      exists t', out', (mkBridge []). split; [|lia].
      by apply crossOptimally_Some.
  - destruct w as [|a [|b w]]; simpl in Hlen; try lia.
    + injection Hn as <- <- <-.
      exists 0, optimalHeader, (mkBridge []). split; [by vm_compute|lia].
    + apply Forall_cons_1 in Hv as [[Ha0 Ha1] _].
      unfold crossNaively in Hn. simpl in Hn. injection Hn as <- <- <-.
      rewrite crossOptimally_eq. simpl std_sort.
      rewrite optimalRun_base by (simpl; lia).
      rewrite baseCases_1, int_add_fits by (unfold INT_MIN; lia).
      simpl. eexists _, _, _. split; [done|lia].
Qed.

Lemma optimal_le_naive_witness :
  ∃ to outo bo, crossOptimally classic = Some (to, outo, bo) ∧ to ≤ 19.
Proof.
  eapply (optimal_le_naive classic 19); [exact valid_classic|].
  vm_compute. reflexivity.
Defined.

(** C2.  On any roster whose speeds are 1, 2, 5 and 10, in whatever order and
    under whatever names, [crossOptimally] returns 17 and [crossNaively]
    returns 19. *)
Theorem classic_totals w :
  speeds w ≡ₚ [1; 2; 5; 10] →
  totalOf (crossOptimally (mkBridge w)) = Some 17 ∧
  totalOf (crossNaively (mkBridge w)) = Some 19.
Proof.
  intros Hp.
  change [1; 2; 5; 10] with (speeds (waitingPeople classic)) in Hp.
  symmetry in Hp. split.
  - by rewrite <- (crossOptimally_speeds _ _ Hp).
  - by rewrite <- (crossNaively_speeds _ _ valid_classic Hp).
Qed.

Lemma classic_totals_witness :
  totalOf (crossOptimally classic) = Some 17 ∧
  totalOf (crossNaively classic) = Some 19.
Proof. apply (classic_totals (waitingPeople classic)). reflexivity. Defined.

(** C3, as the specification words it, fails: on an exact tie the loop takes
    the pairwise branch.  With speeds 1, 2, 3 and 4 both candidates cost 9,
    and the pass logs the pairwise crossings. *)
Lemma tie_takes_pairwise :
  totalShielding tieRoster = Some 9 ∧ totalNaive tieRoster = Some 9 ∧
  chooseMethod 9 9 ≠ Shielding ∧
  iteration tieRoster 0 [] =
    Some (9, [CrossTwo (mkPerson "D" 4) (mkPerson "A" 1);
              Returns (mkPerson "A" 1);
              CrossTwo (mkPerson "C" 3) (mkPerson "A" 1);
              Returns (mkPerson "A" 1)]) ∧
  crossOptimally (mkBridge tieRoster) =
    Some (11, optimalHeader ++
              [CrossTwo (mkPerson "D" 4) (mkPerson "A" 1);
               Returns (mkPerson "A" 1);
               CrossTwo (mkPerson "C" 3) (mkPerson "A" 1);
               Returns (mkPerson "A" 1);
               CrossTwo (mkPerson "B" 2) (mkPerson "A" 1)],
          mkBridge []).
Proof.
  split; [reflexivity|]. split; [reflexivity|]. split; [discriminate|].
  split; [reflexivity|]. vm_compute. reflexivity.
Qed.

(** C3, amended.  In a pass of the main loop over the vector
    [p0 :: p1 :: m ++ [y; z]] (so at least four remain), with shielding cost
    [tS] and pairwise cost [tN], the shielding branch is taken exactly when
    [tS < tN]; when the pairwise cost is smaller or the two are equal the
    pairwise branch is taken.  Each branch adds its own cost and logs its own
    four lines. *)
Theorem branch_choice p0 p1 m y z t out tS tN :
  totalShielding (p0 :: p1 :: m ++ [y; z]) = Some tS →
  totalNaive (p0 :: p1 :: m ++ [y; z]) = Some tN →
  (chooseMethod tS tN = Shielding ↔ tS < tN) ∧
  (chooseMethod tS tN = Naive ↔ tN ≤ tS) ∧
  iteration (p0 :: p1 :: m ++ [y; z]) t out =
    match chooseMethod tS tN with
    | Shielding =>
        t' ← int_add t tS;
        Some (t', out ++ [CrossTwo p1 p0; Returns p0; CrossTwo z y; Returns p1])
    | Naive =>
        t' ← int_add t tN;
        Some (t', out ++ [CrossTwo z p0; Returns p0; CrossTwo y p0; Returns p0])
    end.
Proof.
  intros HS HN. split; [|split].
  - unfold chooseMethod. destruct (Z.ltb_spec tS tN); split; (done || lia).
  - unfold chooseMethod. destruct (Z.ltb_spec tS tN); split; (done || lia).
  - unfold iteration. rewrite HS, HN.
    rewrite shape_lookup_last, shape_lookup_last2. reflexivity.
Qed.

Lemma branch_choice_witness :
  (chooseMethod 9 9 = Shielding ↔ 9 < 9) ∧
  (chooseMethod 9 9 = Naive ↔ 9 ≤ 9) ∧
  iteration tieRoster 0 [] =
    match chooseMethod 9 9 with
    | Shielding =>
        t' ← int_add 0 9;
        Some (t', [] ++ [CrossTwo (mkPerson "B" 2) (mkPerson "A" 1);
                         Returns (mkPerson "A" 1);
                         CrossTwo (mkPerson "D" 4) (mkPerson "C" 3);
                         Returns (mkPerson "B" 2)])
    | Naive =>
        t' ← int_add 0 9;
        Some (t', [] ++ [CrossTwo (mkPerson "D" 4) (mkPerson "A" 1);
                         Returns (mkPerson "A" 1);
                         CrossTwo (mkPerson "C" 3) (mkPerson "A" 1);
                         Returns (mkPerson "A" 1)])
    end.
Proof.
  apply (branch_choice (mkPerson "A" 1) (mkPerson "B" 2) []
           (mkPerson "C" 3) (mkPerson "D" 4) 0 [] 9 9); reflexivity.
Defined.

(** C4.  The empty roster: both solvers return 0 and report no crossing.  One
    person: both return that person's speed.  Two people, not both of speed
    [INT_MAX]: both return the larger speed. *)
Theorem small_rosters :
  (crossNaively (mkBridge []) = Some (0, [], mkBridge []) ∧
   ∃ out, crossOptimally (mkBridge []) = Some (0, out, mkBridge []) ∧
          events out = []) ∧
  (∀ p, valid_person p →
     totalOf (crossNaively (mkBridge [p])) = Some (getSpeed p) ∧
     totalOf (crossOptimally (mkBridge [p])) = Some (getSpeed p)) ∧
  (∀ a b, valid_person a → valid_person b →
     getSpeed a < INT_MAX ∨ getSpeed b < INT_MAX →
     totalOf (crossNaively (mkBridge [a; b]))
       = Some (Z.max (getSpeed a) (getSpeed b)) ∧
     totalOf (crossOptimally (mkBridge [a; b]))
       = Some (Z.max (getSpeed a) (getSpeed b))).
Proof.
  split; [|split].
  - split; [done|]. exists optimalHeader. done.
  - intros p [Hp0 Hp1]. split; [done|].
    rewrite crossOptimally_eq. simpl std_sort.
    rewrite optimalRun_base by (simpl; lia).
    by rewrite baseCases_1, int_add_fits by (unfold INT_MIN; lia).
  - intros a b Ha Hb Hlt. split.
    + rewrite crossNaively_total;
        [|by apply Forall_cons_2, Forall_cons_2, Forall_nil_2|simpl; lia].
      destruct Ha as [Ha0 Ha1], Hb as [Hb0 Hb1].
      unfold naiveCost. simpl. rewrite decide_True by lia. f_equal. lia.
    + destruct Ha as [Ha0 Ha1], Hb as [Hb0 Hb1].
      rewrite crossOptimally_eq. simpl. unfold Person_lt.
      destruct (Z.ltb_spec (getSpeed b) (getSpeed a)).
      * rewrite optimalRun_base by (simpl; lia).
        rewrite baseCases_2, int_add_fits by (unfold INT_MIN; lia).
        simpl. f_equal. lia.
      * rewrite optimalRun_base by (simpl; lia).
        rewrite baseCases_2, int_add_fits by (unfold INT_MIN; lia).
        simpl. f_equal. lia.
Qed.

Lemma small_rosters_witness :
  (totalOf (crossNaively (mkBridge [mkPerson "A" 7])) = Some 7 ∧
   totalOf (crossOptimally (mkBridge [mkPerson "A" 7])) = Some 7) ∧
  (totalOf (crossNaively (mkBridge [mkPerson "A" 7; mkPerson "B" 3]))
     = Some 7 ∧
   totalOf (crossOptimally (mkBridge [mkPerson "A" 7; mkPerson "B" 3]))
     = Some 7).
Proof.
  destruct small_rosters as (_ & H1 & H2). split.
  - apply (H1 (mkPerson "A" 7)). split; [reflexivity|discriminate].
  - apply (H2 (mkPerson "A" 7) (mkPerson "B" 3)).
    + split; [reflexivity|discriminate].
    + split; [reflexivity|discriminate].
    + left. reflexivity.
Defined.

Lemma events_app out1 out2 : events (out1 ++ out2) = events out1 ++ events out2.
Proof. apply filter_app. Qed.

Lemma events_naiveEvents f q : events (naiveEvents f q) = naiveEvents f q.
Proof.
  induction q as [|p q IH]; [done|].
  destruct q as [|p' q]; [done|].
  change (naiveEvents f (p :: p' :: q))
    with (CrossTwo p f :: Returns f :: naiveEvents f (p' :: q)).
  unfold events in *. rewrite !filter_cons_True by done. by rewrite IH.
Qed.

(** C5.  On a roster of [N ≥ 2] people with positive [int] speeds, a total
    returned by [crossNaively] is the sum of the speeds of the [N - 1] people
    other than one person [f] of least speed, plus [N - 2] times the speed of
    [f]; the log pairs each of the others with [f], in roster order, with a
    return of [f] between two crossings and none after the last.  The solver
    does return when twice the sum of the speeds fits in an [int]. *)
Theorem naive_total_formula b :
  valid_roster (waitingPeople b) →
  (2 ≤ length (waitingPeople b))%nat →
  (2 * speedSum (waitingPeople b) ≤ INT_MAX → is_Some (crossNaively b)) ∧
  ∀ t out b',
    crossNaively b = Some (t, out, b') →
    ∃ (i : nat) f,
      waitingPeople b !! i = Some f ∧
      Forall (speed_le f) (waitingPeople b) ∧
      t = speedSum (delete i (waitingPeople b)) +
          (Z.of_nat (length (waitingPeople b)) - 2) * getSpeed f ∧
      events out = naiveEvents f (delete i (waitingPeople b)).
Proof.
  intros Hv Hlen. split.
  - intros Hfit. by apply solvers_defined.
  - intros t out b' Hrun.
    destruct (crossNaively_run _ _ _ _ Hlen (valid_roster_max _ Hv) Hrun)
      as (i & f & Hi & Hall & _ & Ht & _ & -> & _).
    exists i, f. repeat split; try done.
    by rewrite events_app, events_naiveEvents.
Qed.

Lemma naive_total_formula_witness :
  is_Some (crossNaively classic) ∧
  ∃ (i : nat) f,
    waitingPeople classic !! i = Some f ∧
    Forall (speed_le f) (waitingPeople classic) ∧
    19 = speedSum (delete i (waitingPeople classic)) +
         (Z.of_nat (length (waitingPeople classic)) - 2) * getSpeed f ∧
    events (naiveHeader (mkPerson "A" 1) ++
            naiveEvents (mkPerson "A" 1)
              [mkPerson "B" 2; mkPerson "C" 5; mkPerson "D" 10])
      = naiveEvents f (delete i (waitingPeople classic)).
Proof.
  destruct (naive_total_formula classic) as [Hdef Hrun].
  - exact valid_classic.
  - simpl. lia.
  - split.
    + apply Hdef. simpl. unfold INT_MAX. lia.
    + apply (Hrun 19 _ classic). reflexivity.
Defined.

(** C6.  When the main loop of [crossOptimally] stops with exactly three
    people [p0; p1; p2] in the vector, the base case adds
    [speed p0 + speed p1 + speed p2] to the total [t] reached so far (the run
    is undefined when one of the three additions overflows) and logs three
    lines: [p2] and [p0] cross, [p0] returns, [p1] and [p0] cross.  The vector
    being sorted, [p0] is the fastest of the three, [p1] the middle one and
    [p2] the slowest. *)
Theorem three_remaining b t out p0 p1 p2 :
  optimalLoop (std_sort (waitingPeople b)) 0 optimalHeader
    = Some (t, out, [p0; p1; p2]) →
  getSpeed p0 ≤ getSpeed p1 ≤ getSpeed p2 ∧
  crossOptimally b =
    if in_int (getSpeed p0 + getSpeed p1) &&
       in_int (getSpeed p0 + getSpeed p1 + getSpeed p2) &&
       in_int (t + (getSpeed p0 + getSpeed p1 + getSpeed p2))
    then Some (t + (getSpeed p0 + getSpeed p1 + getSpeed p2),
               out ++ [CrossTwo p2 p0; Returns p0; CrossTwo p1 p0],
               mkBridge [])
    else None.
Proof.
  intros Hloop. split.
  - pose proof (std_sort_sorted (waitingPeople b)) as Hs.
    apply optimalLoop_prefix in Hloop as [_ [rest Hrest]].
    rewrite Hrest in Hs. apply StronglySorted_app_1_l in Hs.
    apply StronglySorted_inv in Hs as [Hs H0].
    apply StronglySorted_inv in Hs as [_ H1].
    apply Forall_cons_1 in H0 as [H01 _]. apply Forall_cons_1 in H1 as [H12 _].
    done.
  - unfold crossOptimally. rewrite Hloop. cbn [mbind option_bind].
    rewrite baseCases_3. unfold int_add.
    destruct (in_int (getSpeed p0 + getSpeed p1)); [|done].
    cbn [mbind option_bind andb].
    destruct (in_int (getSpeed p0 + getSpeed p1 + getSpeed p2)); [|done].
    cbn [mbind option_bind andb].
    by destruct (in_int _).
Qed.

Lemma three_remaining_witness :
  1 ≤ 2 ≤ 5 ∧
  crossOptimally fiveBridge =
    Some (17 + (1 + 2 + 5),
          (optimalHeader ++
             [CrossTwo (mkPerson "B" 2) (mkPerson "A" 1);
              Returns (mkPerson "A" 1);
              CrossTwo (mkPerson "E" 12) (mkPerson "D" 10);
              Returns (mkPerson "B" 2)]) ++
             [CrossTwo (mkPerson "C" 5) (mkPerson "A" 1);
              Returns (mkPerson "A" 1);
              CrossTwo (mkPerson "B" 2) (mkPerson "A" 1)],
          mkBridge []).
Proof.
  apply (three_remaining fiveBridge 17
           (optimalHeader ++
             [CrossTwo (mkPerson "B" 2) (mkPerson "A" 1);
              Returns (mkPerson "A" 1);
              CrossTwo (mkPerson "E" 12) (mkPerson "D" 10);
              Returns (mkPerson "B" 2)])
           (mkPerson "A" 1) (mkPerson "B" 2) (mkPerson "C" 5)).
  vm_compute. reflexivity.
Defined.

(** C7.  Let [w1] be a roster of people with positive [int] speeds, and let
    [w2] be a reordering of it or, more generally, any roster with the same
    multiset of speeds.  Then [crossNaively] returns the same total on both
    (or on neither), and so does [crossOptimally]. *)
Theorem permutation_invariance w1 w2 :
  valid_roster w1 →
  w1 ≡ₚ w2 ∨ speeds w1 ≡ₚ speeds w2 →
  totalOf (crossNaively (mkBridge w1))
    = totalOf (crossNaively (mkBridge w2)) ∧
  totalOf (crossOptimally (mkBridge w1))
    = totalOf (crossOptimally (mkBridge w2)).
Proof.
  intros Hv Hp.
  assert (Hs : speeds w1 ≡ₚ speeds w2).
  { destruct Hp as [Hp|Hp]; [by apply speeds_perm|done]. }
  split; [by apply crossNaively_speeds|by apply crossOptimally_speeds].
Qed.

Lemma permutation_invariance_witness :
  totalOf (crossNaively classic)
    = totalOf (crossNaively (mkBridge (reverse (waitingPeople classic)))) ∧
  totalOf (crossOptimally classic)
    = totalOf (crossOptimally (mkBridge (reverse (waitingPeople classic)))).
Proof.
  apply (permutation_invariance (waitingPeople classic)
           (reverse (waitingPeople classic))).
  - exact valid_classic.
  - left. symmetry. apply reverse_Permutation.
Defined.

(** C8.  In a roster of people with positive [int] speeds, give the person at
    index [i] a speed [s'] at least as large as before.  If [crossNaively]
    returns a total on the slower roster it returns one on the original
    roster too, and that one is no larger; likewise for [crossOptimally]. *)
Theorem speed_increase_monotone w (i : nat) p s' :
  valid_roster w → w !! i = Some p → getSpeed p ≤ s' ≤ INT_MAX →
  (∀ t' out' b',
     crossNaively (mkBridge (<[i := setSpeed s' p]> w))
       = Some (t', out', b') →
     ∃ t out b0, crossNaively (mkBridge w) = Some (t, out, b0) ∧ t ≤ t') ∧
  (∀ t' out' b',
     crossOptimally (mkBridge (<[i := setSpeed s' p]> w))
       = Some (t', out', b') →
     ∃ t out b0, crossOptimally (mkBridge w) = Some (t, out, b0) ∧ t ≤ t').
Proof.
  intros Hv Hi Hs'.
  set (w' := <[i := setSpeed s' p]> w).
  assert (HR : Forall2 speed_le w w').
  { eapply insert_speed_le; [exact Hi|]. unfold speed_le. simpl. lia. }
  assert (Hv' : valid_roster w').
  { apply Forall_insert; [done|].
    assert (valid_person p) as [Hp0 Hp1].
    { eapply Forall_forall in Hv; [exact Hv|].
      eapply list_elem_of_lookup_2, Hi. }
    split; simpl; lia. }
  assert (Hlen : length w' = length w) by apply length_insert.
  split; intros t' out' b' Hrun.
  - destruct (decide (2 ≤ length w)%nat) as [H2|H2].
    + apply crossNaively_cost in Hrun as (-> & Hfit & Hmin);
        [|simpl; lia|by apply valid_roster_max]. simpl in Hfit, Hmin |- *.
      pose proof (minSpeed_mono _ _ HR) as Hmm.
      pose proof (minSpeed_pos _ Hv) as Hpos.
      assert (Hc : naiveCost w ≤ naiveCost w').
      { apply naiveCost_mono; auto using valid_roster_max. lia. }
      destruct (crossNaively_defined (mkBridge w)) as [out Hw]; simpl;
        [done|done|lia|lia|].
      exists (naiveCost w), out, (mkBridge w). done.
    + destruct w as [|a [|b w]]; simpl in H2; try lia; [done|].
      destruct i as [|i]; [|done]. injection Hi as ->.
      unfold crossNaively in Hrun |- *. simpl in Hrun |- *.
      injection Hrun as <- <- <-. eexists _, _, _. split; [done|]. lia.
  - apply crossOptimally_Some in Hrun as [Hrun ->]. simpl in Hrun.
    destruct (optimalRun_mono (std_sort w) (std_sort w')) with
      (t := 0) (t' := 0) (out := optimalHeader) (out2 := optimalHeader)
      (r := t') (o := out') (w' := @nil Person)
      as (r0 & o0 & Hw & Hb).
    + by apply std_sort_mono.
    + apply valid_roster_nonneg.
      eapply valid_roster_perm; [symmetry; apply std_sort_perm|done].
    + lia.
    + done.
    + exists r0, o0, (mkBridge []). split; [|lia]. by apply crossOptimally_Some.
Qed.

Lemma speed_increase_monotone_witness :
  (∃ t out b0, crossNaively classic = Some (t, out, b0) ∧ t ≤ 21) ∧
  (∃ t out b0, crossOptimally classic = Some (t, out, b0) ∧ t ≤ 19).
Proof.
  destruct (speed_increase_monotone (waitingPeople classic) 3
              (mkPerson "D" 10) 12) as [Hn Ho].
  - exact valid_classic.
  - reflexivity.
  - simpl. unfold INT_MAX. lia.
  - split.
    + eapply Hn. vm_compute. reflexivity.
    + eapply Ho. vm_compute. reflexivity.
Defined.

Lemma crossNaively_keeps_bridge b t out b' :
  crossNaively b = Some (t, out, b') → b' = b.
Proof.
  unfold crossNaively. intros Hrun.
  destruct (decide (length (waitingPeople b) = 0%nat)); [congruence|].
  destruct (decide (length (waitingPeople b) = 1%nat)).
  { destruct (waitingPeople b !! 0%nat); [|done]. simpl in Hrun. congruence. }
  destruct (findFastest _ _ _ _) as [f idx].
  destruct (processQueue _ _ _ _) as [[t0 out0]|]; [|done].
  simpl in Hrun. congruence.
Qed.

(** C9, as the specification words it, fails: [crossNaively] does not touch
    [waitingPeople].  On the classic roster it returns 19 and leaves the
    bridge as it found it, and [main], which runs the two solvers one after
    the other on the one bridge with no re-load in between, gets 19 and 17. *)
Lemma naive_leaves_roster :
  (∃ out, crossNaively classic = Some (19, out, classic)) ∧
  ¬ (∀ t out b', crossNaively classic = Some (t, out, b') →
       waitingPeople b' ≠ waitingPeople classic) ∧
  (∃ out, main classic = Some (19, 17, out, mkBridge [])).
Proof.
  split; [|split].
  - eexists. vm_compute. reflexivity.
  - intros H. eapply (H 19 _ classic); [vm_compute|]; reflexivity.
  - eexists. vm_compute. reflexivity.
Qed.

(** C9, amended.  [crossOptimally] mutates the roster it runs on: it sorts
    [waitingPeople] and pops every entry, so a non-empty roster has to be
    loaded again or copied before anything runs after it (a [crossNaively]
    run on the bridge it leaves returns 0).  [crossNaively] leaves
    [waitingPeople] as it was: it drains a queue of copies.  So the order
    [main] uses, [crossNaively] then [crossOptimally] on the one bridge, gives
    each solver the roster as loaded. *)
Theorem roster_after_run b :
  (∀ t out b', crossNaively b = Some (t, out, b') → b' = b) ∧
  (∀ t out b', crossOptimally b = Some (t, out, b') →
     waitingPeople b' = [] ∧
     (waitingPeople b ≠ [] → waitingPeople b' ≠ waitingPeople b) ∧
     crossNaively b' = Some (0, [], b')) ∧
  (∀ tn to out b', main b = Some (tn, to, out, b') →
     totalOf (crossNaively b) = Some tn ∧
     totalOf (crossOptimally b) = Some to ∧
     waitingPeople b' = []).
Proof.
  split; [|split].
  - apply crossNaively_keeps_bridge.
  - intros t out b' Hrun. apply crossOptimally_Some in Hrun as [_ ->].
    simpl. split; [done|]. split; [congruence|done].
  - intros tn to out b' Hmain. unfold main in Hmain.
    destruct (crossNaively b) as [[[tn0 out1] b1]|] eqn:Hn; [|done].
    pose proof (crossNaively_keeps_bridge _ _ _ _ Hn) as ->.
    cbn [mbind option_bind] in Hmain.
    destruct (crossOptimally b) as [[[to0 out2] b2]|] eqn:Ho; [|done].
    cbn [mbind option_bind] in Hmain. injection Hmain as <- <- <- <-.
    apply crossOptimally_Some in Ho as [_ ->]. done.
Qed.

Lemma roster_after_run_witness :
  (∃ out, crossNaively classic = Some (19, out, classic)) ∧
  (∃ out b', crossOptimally classic = Some (17, out, b') ∧
     waitingPeople b' = [] ∧
     waitingPeople b' ≠ waitingPeople classic ∧
     crossNaively b' = Some (0, [], b')) ∧
  totalOf (crossNaively classic) = Some 19 ∧
  totalOf (crossOptimally classic) = Some 17.
Proof.
  destruct (roster_after_run classic) as (Hn & Ho & Hm).
  split; [|split].
  - destruct (crossNaively classic) as [[[t out] b']|] eqn:E; [|discriminate].
    assert (t = 19) as -> by (vm_compute in E; congruence).
    rewrite (Hn _ _ _ eq_refl). eauto.
  - destruct (crossOptimally classic) as [[[t out] b']|] eqn:E; [|discriminate].
    assert (t = 17) as -> by (vm_compute in E; congruence).
    destruct (Ho _ _ _ eq_refl) as (H1 & H2 & H3).
    exists out, b'. repeat split; try done. apply H2. discriminate.
  - destruct (main classic) as [[[[tn to] out] b']|] eqn:E; [|discriminate].
    assert (tn = 19 ∧ to = 17) as [-> ->]
      by (vm_compute in E; split; congruence).
    destruct (Hm _ _ _ _ eq_refl) as (H1 & H2 & _). done.
Defined.

(** C10.  [crossOptimally] leaves [waitingPeople] empty whenever it returns.
    A pass of the main loop over a sorted vector of four or more takes off
    its last two entries [y] and [z], the two slowest of those remaining, and
    leaves the rest sorted; the base cases, reached with fewer than four,
    pop every entry that is left.  The solver does return, on a roster of
    positive [int] speeds, when twice their sum fits in an [int]. *)
Theorem optimal_drains w t out :
  ((4 ≤ length w)%nat → StronglySorted speed_le w →
   ∃ w' y z,
     w = w' ++ [y; z] ∧
     Forall (λ p, speed_le p y) w' ∧ speed_le y z ∧
     StronglySorted speed_le w' ∧
     optimalLoop w t out =
       '(t', out') ← iteration w t out; optimalLoop w' t' out') ∧
  ((length w < 4)%nat → ∀ t' out' w',
     baseCases w t out = Some (t', out', w') → w' = []) ∧
  (∀ t' out' b',
     crossOptimally (mkBridge w) = Some (t', out', b') →
     waitingPeople b' = []) ∧
  (valid_roster w → 2 * speedSum w ≤ INT_MAX →
   ∃ t' out', crossOptimally (mkBridge w) = Some (t', out', mkBridge [])).
Proof.
  split; [|split; [|split]].
  - intros Hlen Hs.
    destruct (roster_shape w Hlen) as (p0 & p1 & m & y & z & ->).
    exists (p0 :: p1 :: m), y, z.
    change (p0 :: p1 :: m ++ [y; z]) with ((p0 :: p1 :: m) ++ [y; z])
      in Hs |- *.
    apply StronglySorted_app in Hs as (Hlr & Hl & Hr).
    apply StronglySorted_inv in Hr as [_ Hr].
    apply Forall_cons_1 in Hr as [Hyz _].
    repeat split; try done.
    + apply Forall_forall. intros q Hq.
      apply Hlr; [done|apply list_elem_of_here].
    + rewrite optimalLoop_eq.
      rewrite decide_True by (rewrite length_app; simpl; lia).
      change ((p0 :: p1 :: m) ++ [y; z]) with (p0 :: p1 :: m ++ [y; z]).
      by rewrite shape_pop_back.
  - intros Hlen t' out' w' Hrun.
    rewrite <- optimalRun_base in Hrun by done.
    by eapply optimalRun_empties.
  - intros t' out' b' Hrun. by apply crossOptimally_Some in Hrun as [_ ->].
  - intros Hv Hfit.
    destruct (solvers_defined (mkBridge w) Hv Hfit) as [_ [[[t' out'] b'] Hrun]].
    pose proof Hrun as Hb. apply crossOptimally_Some in Hb as [_ ->]. eauto.
Qed.

Lemma optimal_drains_witness :
  (∃ w' y z,
     fiveRoster = w' ++ [y; z] ∧
     Forall (λ p, speed_le p y) w' ∧ speed_le y z ∧
     StronglySorted speed_le w' ∧
     optimalLoop fiveRoster 0 optimalHeader =
       '(t', out') ← iteration fiveRoster 0 optimalHeader;
       optimalLoop w' t' out') ∧
  (∃ t' out' b', crossOptimally (mkBridge fiveRoster) = Some (t', out', b') ∧
     waitingPeople b' = []).
Proof.
  destruct (optimal_drains fiveRoster 0 optimalHeader)
    as (Hloop & _ & Hrun & _).
  split.
  - apply Hloop.
    + simpl. lia.
    + repeat constructor; unfold speed_le; simpl; lia.
  - destruct (crossOptimally (mkBridge fiveRoster)) as [[[t' out'] b']|] eqn:E;
      [|discriminate].
    exists t', out', b'. split; [reflexivity|]. eapply Hrun. reflexivity.
Defined.

(** * Further properties *)

(** ** Replaying the logs *)

Lemma takeOut_Some p l l' : takeOut p l = Some l' → l ≡ₚ p :: l'.
Proof.
  revert l'. induction l as [|q l IH]; intros l' H; [done|].
  simpl in H. destruct (decide (p = q)) as [->|Hne].
  - by injection H as ->.
  - destruct (takeOut p l) as [k|]; [|done]. injection H as <-.
    rewrite (IH k eq_refl). apply Permutation_swap.
Qed.

Lemma takeOut_perm p l k :
  l ≡ₚ p :: k → ∃ l', takeOut p l = Some l' ∧ l' ≡ₚ k.
Proof.
  intros Hp.
  assert (Hin : p ∈ l) by (rewrite Hp; apply list_elem_of_here).
  assert (Hex : ∃ l', takeOut p l = Some l').
  { clear Hp. induction l as [|q l IH]; [by apply not_elem_of_nil in Hin|].
    simpl. destruct (decide (p = q)); [eauto|].
    apply elem_of_cons in Hin as [?|Hin]; [done|].
    destruct (IH Hin) as [l' ->]. simpl. eauto. }
  destruct Hex as [l' Hl']. exists l'. split; [done|].
  apply takeOut_Some in Hl'. rewrite Hl' in Hp.
  by apply Permutation_cons_inv in Hp.
Qed.

Lemma move_CrossTwo n f p q k :
  n ≡ₚ p :: q :: k →
  ∃ k', move (mkShore n f Near) (CrossTwo p q)
          = Some (mkShore k' (p :: q :: f) Far) ∧ k' ≡ₚ k.
Proof.
  intros Hp. simpl.
  destruct (takeOut_perm _ _ _ Hp) as (n1 & -> & H1). simpl.
  destruct (takeOut_perm _ _ _ H1) as (n2 & -> & H2). simpl. eauto.
Qed.

Lemma move_CrossOne n f p k :
  n ≡ₚ p :: k →
  ∃ k', move (mkShore n f Near) (CrossOne p)
          = Some (mkShore k' (p :: f) Far) ∧ k' ≡ₚ k.
Proof.
  intros Hp. simpl.
  destruct (takeOut_perm _ _ _ Hp) as (n1 & -> & H1). simpl. eauto.
Qed.

Lemma move_Returns n f p k :
  f ≡ₚ p :: k →
  ∃ k', move (mkShore n f Far) (Returns p)
          = Some (mkShore (p :: n) k' Near) ∧ k' ≡ₚ k.
Proof.
  intros Hp. simpl.
  destruct (takeOut_perm _ _ _ Hp) as (f1 & -> & H1). simpl. eauto.
Qed.

Lemma replay_app s evs1 evs2 :
  replay s (evs1 ++ evs2) = s' ← replay s evs1; replay s' evs2.
Proof.
  revert s. induction evs1 as [|e evs1 IH]; intros s; simpl; [done|].
  destruct (move s e) as [s1|]; simpl; [apply IH|done].
Qed.

Lemma duration_app evs1 evs2 :
  duration (evs1 ++ evs2) = duration evs1 + duration evs2.
Proof. induction evs1; simpl; lia. Qed.

(** A small solver for permutation goals over lists built with [::] and
    [++]: take the head of the left side out of the right side, and repeat. *)
Ltac split_at x r :=
  lazymatch r with
  | x :: ?r' => constr:((@nil Person, r'))
  | ?y :: ?r' =>
      let res := split_at x r' in
      lazymatch res with (?l1, ?l2) => constr:((y :: l1, l2)) end
  | ?a ++ ?r' =>
      let res := split_at x r' in
      lazymatch res with (?l1, ?l2) => constr:((a ++ l1, l2)) end
  end.

Ltac perm_cons :=
  lazymatch goal with
  | |- ?x :: ?l ≡ₚ ?r =>
      let res := split_at x r in
      lazymatch res with
      | (?l1, ?l2) =>
          trans (l1 ++ x :: l2);
          [apply Permutation_cons_app
          |rewrite <- ?app_assoc; reflexivity];
          rewrite <- ?app_assoc, ?app_nil_r; simpl
      end
  end.

Ltac perm_step :=
  lazymatch goal with
  | |- _ :: _ ≡ₚ _ => perm_cons
  | |- ?a ++ _ ≡ₚ ?a ++ _ => apply Permutation_app_head
  | |- _ ++ _ ≡ₚ _ :: _ => symmetry; perm_cons
  end.

Ltac perm := rewrite <- ?app_assoc; simpl; repeat perm_step; reflexivity.

Lemma plan_nil : plan [] [].
Proof.
  split; [done|]. intros n f Hn. apply Permutation_nil_r in Hn as ->.
  exists f. done.
Qed.

Lemma plan_perm w w' evs : w ≡ₚ w' → plan w evs → plan w' evs.
Proof.
  intros Hp [Hev Hrun]. split; [done|]. intros n f Hn.
  destruct (Hrun n f) as (f' & Hr & Hf); [by rewrite Hp|].
  exists f'. split; [|by rewrite <- Hp].
  rewrite Hr. repeat f_equal.
  destruct (decide (w = [])) as [->|Hw], (decide (w' = [])) as [->|Hw'];
    try done.
  - by apply Permutation_nil_l in Hp.
  - by apply Permutation_nil_r in Hp.
Qed.

Lemma plan_naiveEvents f q : q ≠ [] → plan (f :: q) (naiveEvents f q).
Proof.
  intros Hne. split; [apply events_naiveEvents|].
  rewrite decide_False by done.
  induction q as [|p q IH]; [done|]. intros n fr Hn.
  destruct q as [|p' q].
  - destruct (move_CrossTwo n fr p f []) as (k & Hm & Hk); [rewrite Hn; perm|].
    apply Permutation_nil_r in Hk as ->.
    exists (p :: f :: fr). cbn [naiveEvents replay]. rewrite Hm.
    split; [done|]. perm.
  - destruct (move_CrossTwo n fr p f (p' :: q)) as (k & Hm & Hk);
      [rewrite Hn; perm|].
    destruct (move_Returns k (p :: f :: fr) f (p :: fr)) as (k2 & Hm2 & Hk2);
      [perm|].
    destruct (IH ltac:(done) (f :: k) k2) as (f' & Hr & Hf'); [by rewrite Hk|].
    exists f'.
    change (naiveEvents f (p :: p' :: q))
      with (CrossTwo p f :: Returns f :: naiveEvents f (p' :: q)).
    cbn [replay]. rewrite Hm. cbn [mbind option_bind]. rewrite Hm2.
    cbn [mbind option_bind]. split; [done|].
    rewrite Hf', Hk2. perm.
Qed.

Lemma duration_naiveEvents f q :
  q ≠ [] → Forall (speed_le f) q →
  duration (naiveEvents f q)
  = speedSum q + (Z.of_nat (length q) - 1) * getSpeed f.
Proof.
  intros Hne Hall. induction Hall as [|p q Hp Hall IH]; [done|].
  unfold speed_le in Hp. destruct q as [|p' q].
  - simpl. lia.
  - change (naiveEvents f (p :: p' :: q))
      with (CrossTwo p f :: Returns f :: naiveEvents f (p' :: q)).
    cbn [duration moveCost]. rewrite IH by done.
    simpl speedSum. simpl length. lia.
Qed.

Lemma iteration_plan p0 p1 m y z t out t1 out1 :
  StronglySorted speed_le (p0 :: p1 :: m ++ [y; z]) →
  iteration (p0 :: p1 :: m ++ [y; z]) t out = Some (t1, out1) →
  ∃ evs,
    out1 = out ++ evs ∧ events evs = evs ∧ t1 = t + duration evs ∧
    ∀ n f, n ≡ₚ p0 :: p1 :: m ++ [y; z] →
      ∃ n' f', replay (mkShore n f Near) evs = Some (mkShore n' f' Near) ∧
               n' ≡ₚ p0 :: p1 :: m ∧ f' ≡ₚ y :: z :: f.
Proof.
  intros Hs Hit.
  apply sorted_shape in Hs as (_ & H01 & H1y & Hyz).
  rewrite iteration_shape in Hit.
  destruct (int_add (getSpeed p1) (getSpeed p0)) eqn:E1; [|done].
  apply int_add_Some in E1 as [-> _]. cbn [mbind option_bind] in Hit.
  destruct (int_add _ (getSpeed z)) eqn:E2; [|done].
  apply int_add_Some in E2 as [-> _]. cbn [mbind option_bind] in Hit.
  destruct (int_add _ (getSpeed p1)) eqn:E3; [|done].
  apply int_add_Some in E3 as [-> _]. cbn [mbind option_bind] in Hit.
  destruct (int_add (getSpeed z) (getSpeed p0)) eqn:E4; [|done].
  apply int_add_Some in E4 as [-> _]. cbn [mbind option_bind] in Hit.
  destruct (int_add _ (getSpeed y)) eqn:E5; [|done].
  apply int_add_Some in E5 as [-> _]. cbn [mbind option_bind] in Hit.
  destruct (int_add _ (getSpeed p0)) eqn:E6; [|done].
  apply int_add_Some in E6 as [-> _]. cbn [mbind option_bind] in Hit.
  destruct (chooseMethod _ _).
  - destruct (int_add t _) eqn:E7; [|done].
    apply int_add_Some in E7 as [-> _]. injection Hit as <- <-.
    eexists. split; [done|]. split; [done|]. split; [simpl; lia|].
    intros n f Hn.
    destruct (move_CrossTwo n f p1 p0 (m ++ [y; z])) as (k1 & M1 & K1);
      [rewrite Hn; perm|].
    destruct (move_Returns k1 (p1 :: p0 :: f) p0 (p1 :: f))
      as (f2 & M2 & F2); [perm|].
    destruct (move_CrossTwo (p0 :: k1) f2 z y (p0 :: m)) as (k3 & M3 & K3);
      [rewrite K1; perm|].
    destruct (move_Returns k3 (z :: y :: f2) p1 (z :: y :: f))
      as (f4 & M4 & F4); [rewrite F2; perm|].
    exists (p1 :: k3), f4. cbn [replay].
    rewrite M1. cbn [mbind option_bind]. rewrite M2. cbn [mbind option_bind].
    rewrite M3. cbn [mbind option_bind]. rewrite M4. cbn [mbind option_bind].
    split; [done|]. split; [rewrite K3; perm|rewrite F4; perm].
  - destruct (int_add t _) eqn:E7; [|done].
    apply int_add_Some in E7 as [-> _]. injection Hit as <- <-.
    eexists. split; [done|]. split; [done|]. split; [simpl; lia|].
    intros n f Hn.
    destruct (move_CrossTwo n f z p0 (p1 :: m ++ [y])) as (k1 & M1 & K1);
      [rewrite Hn; perm|].
    destruct (move_Returns k1 (z :: p0 :: f) p0 (z :: f))
      as (f2 & M2 & F2); [perm|].
    destruct (move_CrossTwo (p0 :: k1) f2 y p0 (p1 :: m)) as (k3 & M3 & K3);
      [rewrite K1; perm|].
    destruct (move_Returns k3 (y :: p0 :: f2) p0 (y :: z :: f))
      as (f4 & M4 & F4); [rewrite F2; perm|].
    exists (p0 :: k3), f4. cbn [replay].
    rewrite M1. cbn [mbind option_bind]. rewrite M2. cbn [mbind option_bind].
    rewrite M3. cbn [mbind option_bind]. rewrite M4. cbn [mbind option_bind].
    split; [done|]. split; [rewrite K3; perm|rewrite F4; perm].
Qed.

(** A run of the loop and the base cases appends a plan for the people it
    was given, and adds the plan's duration to the total. *)
Lemma optimalRun_plan w :
  StronglySorted speed_le w →
  ∀ t out t' out' w',
    optimalRun w t out = Some (t', out', w') →
    ∃ evs, out' = out ++ evs ∧ plan w evs ∧ t' = t + duration evs.
Proof.
  induction w as [w Hlen|p0 p1 m y z IH] using roster_loop_ind;
    intros Hs t out t' out' w' Hrun.
  - rewrite optimalRun_base in Hrun by done.
    destruct (short_roster w Hlen)
      as [->|[[a ->]|[(a & b & ->)|(a & b & c & ->)]]].
    + rewrite baseCases_0 in Hrun. int_adds Hrun. injection Hrun as <- <- <-.
      exists []. rewrite app_nil_r. split; [done|]. split; [apply plan_nil|].
      simpl. lia.
    + rewrite baseCases_1 in Hrun. int_adds Hrun. injection Hrun as <- <- <-.
      eexists. split; [done|]. split; [|simpl; lia].
      split; [done|]. intros n f Hn. rewrite decide_False by done.
      destruct (move_CrossOne n f a []) as (k & M & K); [done|].
      apply Permutation_nil_r in K as ->.
      eexists. cbn [replay]. rewrite M. split; [done|]. perm.
    + apply StronglySorted_inv in Hs as [_ Hab].
      apply Forall_cons_1 in Hab as [Hab _]. unfold speed_le in Hab.
      rewrite baseCases_2 in Hrun. int_adds Hrun. injection Hrun as <- <- <-.
      eexists. split; [done|]. split; [|simpl; lia].
      split; [done|]. intros n f Hn. rewrite decide_False by done.
      destruct (move_CrossTwo n f b a []) as (k & M & K); [rewrite Hn; perm|].
      apply Permutation_nil_r in K as ->.
      eexists. cbn [replay]. rewrite M. split; [done|]. perm.
    + apply StronglySorted_inv in Hs as [Hs Ha].
      apply StronglySorted_inv in Hs as [_ Hb].
      apply Forall_cons_1 in Ha as [Hab Ha].
      apply Forall_cons_1 in Ha as [Hac _].
      apply Forall_cons_1 in Hb as [Hbc _]. unfold speed_le in Hab, Hac, Hbc.
      rewrite baseCases_3 in Hrun. int_adds Hrun. injection Hrun as <- <- <-.
      eexists. split; [done|]. split; [|simpl; lia].
      split; [done|]. intros n f Hn. rewrite decide_False by done.
      destruct (move_CrossTwo n f c a [b]) as (k1 & M1 & K1);
        [rewrite Hn; perm|].
      destruct (move_Returns k1 (c :: a :: f) a (c :: f))
        as (f2 & M2 & F2); [perm|].
      destruct (move_CrossTwo (a :: k1) f2 b a []) as (k3 & M3 & K3);
        [rewrite K1; perm|].
      apply Permutation_nil_r in K3 as ->.
      eexists. cbn [replay].
      rewrite M1. cbn [mbind option_bind]. rewrite M2. cbn [mbind option_bind].
      rewrite M3. split; [done|]. rewrite F2. perm.
  - rewrite optimalRun_step in Hrun.
    destruct (iteration _ _ _) as [[t1 out1]|] eqn:Hit; [|done].
    cbn [mbind option_bind] in Hrun.
    destruct (iteration_plan _ _ _ _ _ _ _ _ _ Hs Hit)
      as (evs4 & -> & Hev4 & -> & Hplay4).
    apply sorted_shape in Hs as (Hs' & _).
    destruct (IH Hs' _ _ _ _ _ Hrun) as (evs & -> & [Hev Hplay] & ->).
    exists (evs4 ++ evs). split; [by rewrite app_assoc|].
    split; [|rewrite duration_app; lia].
    split; [by rewrite events_app, Hev4, Hev|].
    intros n f Hn. rewrite decide_False by done.
    rewrite decide_False in Hplay by done.
    destruct (Hplay4 n f Hn) as (n' & f' & R4 & Hn' & Hf').
    destruct (Hplay n' f' Hn') as (f'' & R & Hf'').
    exists f''. rewrite replay_app, R4. cbn [mbind option_bind].
    split; [done|]. rewrite Hf'', Hf'. perm.
Qed.

Lemma crossOptimally_plan b t out b' :
  crossOptimally b = Some (t, out, b') →
  ∃ evs, events out = evs ∧ plan (waitingPeople b) evs ∧ t = duration evs.
Proof.
  intros Hrun. apply crossOptimally_Some in Hrun as [Hrun _].
  apply optimalRun_plan in Hrun as (evs & -> & Hplan & ->);
    [|apply std_sort_sorted].
  exists evs. destruct Hplan as [Hev Hplay].
  split; [by rewrite events_app, Hev|].
  split; [|lia]. eapply plan_perm; [apply std_sort_perm|]. by split.
Qed.

(** X1.  The crossing and return lines [crossOptimally] prints are a legal
    schedule for the roster it was given: replayed from everybody on the near
    bank with the torch, every line moves people who are on the torch's
    bank, and at the end the near bank is empty and the far bank holds the
    roster. *)
Theorem crossOptimally_log_replays b t out b' :
  crossOptimally b = Some (t, out, b') →
  ∃ f', replay (mkShore (waitingPeople b) [] Near) (events out)
          = Some (mkShore [] f'
                    (if decide (waitingPeople b = []) then Near else Far)) ∧
        f' ≡ₚ waitingPeople b.
Proof.
  intros Hrun.
  destruct (crossOptimally_plan _ _ _ _ Hrun) as (evs & -> & [_ Hplay] & _).
  destruct (Hplay (waitingPeople b) []) as (f' & Hr & Hf'); [done|].
  exists f'. split; [done|]. by rewrite app_nil_r in Hf'.
Qed.

Lemma crossOptimally_log_replays_witness :
  ∃ f', replay (mkShore (waitingPeople fiveBridge) [] Near)
          (events (optimalHeader ++
             [CrossTwo (mkPerson "B" 2) (mkPerson "A" 1);
              Returns (mkPerson "A" 1);
              CrossTwo (mkPerson "E" 12) (mkPerson "D" 10);
              Returns (mkPerson "B" 2);
              CrossTwo (mkPerson "C" 5) (mkPerson "A" 1);
              Returns (mkPerson "A" 1);
              CrossTwo (mkPerson "B" 2) (mkPerson "A" 1)]))
          = Some (mkShore [] f'
                    (if decide (waitingPeople fiveBridge = [])
                     then Near else Far)) ∧
        f' ≡ₚ waitingPeople fiveBridge.
Proof.
  apply (crossOptimally_log_replays fiveBridge 25 _ (mkBridge [])).
  vm_compute. reflexivity.
Defined.

(** X2.  The total [crossOptimally] returns is the duration of the schedule
    it prints, a crossing of two taking the time of the slower and a return
    or a lone crossing the time of the one who walks. *)
Theorem crossOptimally_total_is_duration b t out b' :
  crossOptimally b = Some (t, out, b') → t = duration (events out).
Proof.
  intros Hrun.
  by destruct (crossOptimally_plan _ _ _ _ Hrun) as (evs & -> & _ & ->).
Qed.

Lemma crossOptimally_total_is_duration_witness :
  17 = duration (events (optimalHeader ++
         [CrossTwo (mkPerson "B" 2) (mkPerson "A" 1);
          Returns (mkPerson "A" 1);
          CrossTwo (mkPerson "D" 10) (mkPerson "C" 5);
          Returns (mkPerson "B" 2);
          CrossTwo (mkPerson "B" 2) (mkPerson "A" 1)])).
Proof.
  apply (crossOptimally_total_is_duration classic 17 _ (mkBridge [])).
  vm_compute. reflexivity.
Defined.

Lemma crossNaively_plan b t out b' :
  (2 ≤ length (waitingPeople b))%nat →
  Forall (λ p, getSpeed p ≤ INT_MAX) (waitingPeople b) →
  crossNaively b = Some (t, out, b') →
  ∃ evs, events out = evs ∧ plan (waitingPeople b) evs ∧ t = duration evs.
Proof.
  intros Hlen Hmax Hrun.
  destruct (crossNaively_run _ _ _ _ Hlen Hmax Hrun)
    as (i & f & Hi & Hall & _ & -> & _ & -> & _).
  assert (Hdl : length (delete i (waitingPeople b)) =
                (length (waitingPeople b) - 1)%nat).
  { apply length_delete. eauto. }
  assert (Hne : delete i (waitingPeople b) ≠ []).
  { intros Hnil. rewrite Hnil in Hdl. simpl in Hdl. lia. }
  exists (naiveEvents f (delete i (waitingPeople b))).
  split; [by rewrite events_app, events_naiveEvents|].
  split.
  - eapply plan_perm; [symmetry; eapply delete_Permutation, Hi|].
    by apply plan_naiveEvents.
  - rewrite duration_naiveEvents; [rewrite Hdl; lia|done|].
    by apply Forall_delete.
Qed.

(** X3.  On a roster of people with positive [int] speeds that holds two or
    more, the crossing and return lines [crossNaively] prints are a legal
    schedule that takes the whole roster across.  With exactly one person it
    returns that person's speed but prints no line at all, so its log moves
    nobody. *)
Theorem crossNaively_log_replays :
  (∀ b t out b',
     valid_roster (waitingPeople b) → (2 ≤ length (waitingPeople b))%nat →
     crossNaively b = Some (t, out, b') →
     ∃ f', replay (mkShore (waitingPeople b) [] Near) (events out)
             = Some (mkShore [] f' Far) ∧
           f' ≡ₚ waitingPeople b) ∧
  (∀ p, crossNaively (mkBridge [p]) = Some (getSpeed p, [], mkBridge [p])).
Proof.
  split; [|done]. intros b t out b' Hv Hlen Hrun.
  destruct (crossNaively_plan _ _ _ _ Hlen (valid_roster_max _ Hv) Hrun)
    as (evs & -> & [_ Hplay] & _).
  destruct (Hplay (waitingPeople b) []) as (f' & Hr & Hf'); [done|].
  rewrite decide_False in Hr.
  2:{ intros Hnil. rewrite Hnil in Hlen. simpl in Hlen. lia. }
  exists f'. split; [done|]. by rewrite app_nil_r in Hf'.
Qed.

Lemma crossNaively_log_replays_witness :
  ∃ f', replay (mkShore (waitingPeople classic) [] Near)
          (events (naiveHeader (mkPerson "A" 1) ++
                   naiveEvents (mkPerson "A" 1)
                     [mkPerson "B" 2; mkPerson "C" 5; mkPerson "D" 10]))
          = Some (mkShore [] f' Far) ∧
        f' ≡ₚ waitingPeople classic.
Proof.
  destruct crossNaively_log_replays as [H _].
  apply (H classic 19 _ classic).
  - exact valid_classic.
  - simpl. lia.
  - reflexivity.
Defined.

(** X4.  On a roster of two or more people with positive [int] speeds, the
    total [crossNaively] returns is the duration of the schedule it
    prints. *)
Theorem crossNaively_total_is_duration b t out b' :
  valid_roster (waitingPeople b) → (2 ≤ length (waitingPeople b))%nat →
  crossNaively b = Some (t, out, b') → t = duration (events out).
Proof.
  intros Hv Hlen Hrun.
  by destruct (crossNaively_plan _ _ _ _ Hlen (valid_roster_max _ Hv) Hrun)
    as (evs & -> & _ & ->).
Qed.

Lemma crossNaively_total_is_duration_witness :
  19 = duration (events (naiveHeader (mkPerson "A" 1) ++
                   naiveEvents (mkPerson "A" 1)
                     [mkPerson "B" 2; mkPerson "C" 5; mkPerson "D" 10])).
Proof.
  apply (crossNaively_total_is_duration classic 19 _ classic).
  - exact valid_classic.
  - simpl. lia.
  - reflexivity.
Defined.

(** ** When the two solvers differ *)

Lemma run_result_eq {A} (t t' : Z) (o : list Line) (w : A) :
  t = t' → Some (t, o, w) = Some (t', o, w).
Proof. by intros ->. Qed.

(** As long as the second fastest is not fast enough for shielding to pay,
    every pass takes the pairwise branch and the run costs what the naive
    solver costs.  [c] bounds the speed of the second slowest. *)
Lemma optimalRun_all_pairwise w : ∀ c t out,
  StronglySorted speed_le w → valid_roster w → (2 ≤ length w)%nat →
  (∀ p0 p1 r, w = p0 :: p1 :: r → getSpeed p0 + c ≤ 2 * getSpeed p1) →
  (∀ m' y z, w = m' ++ [y; z] → (4 ≤ length w)%nat → getSpeed y ≤ c) →
  0 ≤ t → t + naiveCost w ≤ INT_MAX →
  ∃ out', optimalRun w t out = Some (t + naiveCost w, out', []).
Proof.
  induction w as [w Hlen|p0 p1 m y z IH] using roster_loop_ind;
    intros c t out Hs Hv Hlen2 H1 H2 Ht Hfit.
  - rewrite optimalRun_base by done.
    destruct (short_roster w Hlen)
      as [->|[[a ->]|[(a & b & ->)|(a & b & c' & ->)]]];
      simpl in Hlen2; try lia.
    + apply Forall_cons_1 in Hv as [[Ha0 Ha1] Hv].
      apply Forall_cons_1 in Hv as [[Hb0 Hb1] _].
      apply StronglySorted_inv in Hs as [_ Hab].
      apply Forall_cons_1 in Hab as [Hab _]. unfold speed_le in Hab.
      unfold naiveCost in *. simpl in Hfit |- *.
      rewrite baseCases_2, int_add_fits by (unfold INT_MIN; lia).
      eexists. apply run_result_eq. lia.
    + apply Forall_cons_1 in Hv as [[Ha0 Ha1] Hv].
      apply Forall_cons_1 in Hv as [[Hb0 Hb1] Hv].
      apply Forall_cons_1 in Hv as [[Hc0 Hc1] _].
      unfold naiveCost in *. simpl in Hfit |- *.
      rewrite baseCases_3.
      fit (getSpeed a) (getSpeed b).
      fit (getSpeed a + getSpeed b) (getSpeed c').
      fit t (getSpeed a + getSpeed b + getSpeed c').
      eexists. apply run_result_eq. lia.
  - pose proof (sorted_shape _ _ _ _ _ Hs) as (Hs' & H01 & H1y & Hyz).
    pose proof (valid_shape _ _ _ _ _ Hv) as (Hv' & [Hy0 Hy1] & [Hz0 Hz1]).
    pose proof Hv' as Hv2.
    apply Forall_cons_1 in Hv2 as [[Ha0 Ha1] Hv2].
    apply Forall_cons_1 in Hv2 as [[Hb0 Hb1] Hm].
    specialize (H1 _ _ _ eq_refl).
    assert (Hyc : getSpeed y ≤ c).
    { apply (H2 (p0 :: p1 :: m) y z); [done|].
      simpl. rewrite length_app. simpl. lia. }
    rewrite naiveCost_shape in Hfit |- * by done.
    assert (Hc : getSpeed p1 ≤ naiveCost (p0 :: p1 :: m)).
    { unfold naiveCost. rewrite (sorted_minSpeed _ _ Hs' Ha1).
      apply valid_roster_nonneg, speedSum_nonneg in Hm.
      simpl speedSum. simpl length. nia. }
    assert (Hstep : stepTotal (getSpeed p0) (getSpeed p1) (getSpeed y)
                      (getSpeed z) t
                    = Some (t + (getSpeed z + getSpeed y + 2 * getSpeed p0))).
    { apply stepTotal_Some; lia. }
    apply (iteration_Some p0 p1 m y z t out) in Hstep as [out1 Hit].
    rewrite optimalRun_step, Hit. cbn [mbind option_bind].
    destruct (IH c (t + (getSpeed z + getSpeed y + 2 * getSpeed p0)) out1)
      as [out' Hrun]; try done; try lia.
    + simpl. lia.
    + intros q0 q1 r [= <- <- <-]. done.
    + intros m' y' z' Hw' Hlen'.
      assert (Hin : y' ∈ p0 :: p1 :: m).
      { rewrite Hw'. apply elem_of_app. right. apply list_elem_of_here. }
      change (p0 :: p1 :: m ++ [y; z]) with ((p0 :: p1 :: m) ++ [y; z]) in Hs.
      apply StronglySorted_app in Hs as (Hlr & _ & _).
      specialize (Hlr y' y Hin ltac:(apply list_elem_of_here)).
      unfold speed_le in Hlr. lia.
    + exists out'. rewrite Hrun. apply run_result_eq. lia.
Qed.

Lemma sorted_head_le p0 p1 r :
  StronglySorted speed_le (p0 :: p1 :: r) → getSpeed p0 ≤ getSpeed p1.
Proof.
  intros Hs. apply StronglySorted_inv in Hs as [_ H].
  by apply Forall_cons_1 in H as [H _].
Qed.

(** X5.  Up to three people the two solvers agree: on a roster of at most
    three people with positive [int] speeds, a total returned by
    [crossNaively] is also the total [crossOptimally] returns. *)
Theorem solvers_agree_up_to_three b tn outn bn :
  valid_roster (waitingPeople b) → (length (waitingPeople b) ≤ 3)%nat →
  crossNaively b = Some (tn, outn, bn) →
  totalOf (crossOptimally b) = Some tn.
Proof.
  destruct b as [w]. simpl. intros Hv Hlen Hn.
  destruct (decide (2 ≤ length w)%nat) as [H2|H2].
  - apply crossNaively_cost in Hn as (-> & Hfit & _);
      [|done|by apply valid_roster_max]. simpl in Hfit |- *.
    pose proof (std_sort_perm w) as Hp.
    destruct (optimalRun_all_pairwise (std_sort w) (minSpeed (std_sort w))
                0 optimalHeader) as [out' Hrun].
    + apply std_sort_sorted.
    + eapply valid_roster_perm; [symmetry; exact Hp|done].
    + by rewrite std_sort_length.
    + intros p0 p1 r Hw.
      pose proof (std_sort_sorted w) as Hs. rewrite Hw in Hs |- *.
      rewrite sorted_minSpeed; [|done|].
      * apply sorted_head_le in Hs. lia.
      * assert (Hv' : valid_roster (p0 :: p1 :: r)).
        { rewrite <- Hw. eapply valid_roster_perm; [symmetry; exact Hp|done]. }
        apply Forall_cons_1 in Hv' as [[_ ?] _]. done.
    + intros m' y z _ Hlen4. rewrite std_sort_length in Hlen4. lia.
    + done.
    + rewrite (naiveCost_speeds_perm _ w) by (by apply speeds_perm). lia.
    + rewrite (naiveCost_speeds_perm _ w) in Hrun by (by apply speeds_perm).
      rewrite crossOptimally_eq. simpl. rewrite Hrun. simpl. f_equal; lia.
  - destruct w as [|a [|b w]]; simpl in H2; try lia.
    + by injection Hn as <- <- <-.
    + apply Forall_cons_1 in Hv as [[Ha0 Ha1] _].
      unfold crossNaively in Hn. simpl in Hn. injection Hn as <- <- <-.
      rewrite crossOptimally_eq. simpl std_sort.
      rewrite optimalRun_base by (simpl; lia).
      by rewrite baseCases_1, int_add_fits by (unfold INT_MIN; lia).
Qed.

Lemma solvers_agree_up_to_three_witness :
  totalOf (crossOptimally
             (mkBridge [mkPerson "C" 5; mkPerson "A" 1; mkPerson "B" 2]))
  = Some 8.
Proof.
  eapply (solvers_agree_up_to_three
            (mkBridge [mkPerson "C" 5; mkPerson "A" 1; mkPerson "B" 2]) 8).
  - repeat constructor; unfold INT_MAX; simpl; lia.
  - simpl. lia.
  - vm_compute. reflexivity.
Defined.

(** X6.  With four or more people the shielding solver beats the naive one
    exactly when shielding pays on the first pass: for [p0] and [p1] the two
    fastest and [y] the second slowest of the sorted roster, the optimal
    total is strictly below the naive total iff
    [2 * speed p1 < speed p0 + speed y]; otherwise the totals are equal. *)
Theorem shielding_pays b tn outn bn p0 p1 y :
  valid_roster (waitingPeople b) →
  (4 ≤ length (waitingPeople b))%nat →
  std_sort (waitingPeople b) !! 0%nat = Some p0 →
  std_sort (waitingPeople b) !! 1%nat = Some p1 →
  std_sort (waitingPeople b) !! (length (waitingPeople b) - 2)%nat = Some y →
  crossNaively b = Some (tn, outn, bn) →
  ∃ to, totalOf (crossOptimally b) = Some to ∧ to ≤ tn ∧
        (to < tn ↔ 2 * getSpeed p1 < getSpeed p0 + getSpeed y).
Proof.
  destruct b as [w]. simpl. intros Hv Hlen H0 H1 Hy Hn.
  apply crossNaively_cost in Hn as (-> & Hfit & _);
    [|simpl; lia|by apply valid_roster_max]. simpl in Hfit |- *.
  pose proof (std_sort_perm w) as Hp.
  pose proof (std_sort_sorted w) as Hs.
  assert (Hvs : valid_roster (std_sort w))
    by (eapply valid_roster_perm; [symmetry; exact Hp|done]).
  rewrite <- (naiveCost_speeds_perm (std_sort w) w) in Hfit |- *
    by (by apply speeds_perm).
  rewrite crossOptimally_eq. simpl.
  rewrite <- (std_sort_length w) in Hlen, Hy.
  destruct (roster_shape _ Hlen) as (q0 & q1 & m & y' & z & Hshape).
  rewrite Hshape in *. clear Hshape.
  rewrite shape_lookup_last2 in Hy. simpl in H0, H1.
  injection H0 as ->. injection H1 as ->. injection Hy as ->.
  pose proof (sorted_shape _ _ _ _ _ Hs) as (Hs' & H01 & H1y & Hyz).
  pose proof (valid_shape _ _ _ _ _ Hvs) as (Hv' & [Hy0 Hy1] & [Hz0 Hz1]).
  pose proof Hv' as Hv2.
  apply Forall_cons_1 in Hv2 as [[Ha0 Ha1] Hv2].
  apply Forall_cons_1 in Hv2 as [[Hb0 Hb1] Hm].
  destruct (decide (2 * getSpeed p1 < getSpeed p0 + getSpeed y)) as [Hpay|Hno].
  - rewrite naiveCost_shape in Hfit |- * by done.
    assert (Hc : getSpeed p1 ≤ naiveCost (p0 :: p1 :: m)).
    { unfold naiveCost. rewrite (sorted_minSpeed _ _ Hs' Ha1).
      apply valid_roster_nonneg, speedSum_nonneg in Hm.
      simpl speedSum. simpl length. nia. }
    assert (Hstep : stepTotal (getSpeed p0) (getSpeed p1) (getSpeed y)
                      (getSpeed z) 0
                    = Some (0 + (2 * getSpeed p1 + getSpeed p0 + getSpeed z))).
    { apply stepTotal_Some; lia. }
    apply (iteration_Some p0 p1 m y z 0 optimalHeader) in Hstep as [out1 Hit].
    rewrite optimalRun_step, Hit. cbn [mbind option_bind].
    destruct (optimalRun_bound (p0 :: p1 :: m) Hs' Hv' ltac:(simpl; lia)
                (0 + (2 * getSpeed p1 + getSpeed p0 + getSpeed z)) out1)
      as (t' & out' & Hrun & Hb); [lia|lia|].
    rewrite Hrun. simpl. exists t'. split; [done|]. lia.
  - destruct (optimalRun_all_pairwise (p0 :: p1 :: m ++ [y; z]) (getSpeed y)
                0 optimalHeader) as [out' Hrun];
      [exact Hs|exact Hvs|lia| | |lia|lia|].
    + intros r0 r1 r [= <- <- <-]. lia.
    + intros m' y' z' Hw _.
      change (p0 :: p1 :: m ++ [y; z]) with ((p0 :: p1 :: m) ++ [y; z]) in Hw.
      apply app_inj_2 in Hw as [_ [= <- <-]]; [lia|done].
    + rewrite Hrun. simpl. eexists. split; [done|]. lia.
Qed.

Lemma shielding_pays_witness :
  ∃ to, totalOf (crossOptimally classic) = Some to ∧ to ≤ 19 ∧
        (to < 19 ↔ 2 * 2 < 1 + 5).
Proof.
  apply (shielding_pays classic 19 (naiveHeader (mkPerson "A" 1) ++
           naiveEvents (mkPerson "A" 1)
             [mkPerson "B" 2; mkPerson "C" 5; mkPerson "D" 10]) classic
           (mkPerson "A" 1) (mkPerson "B" 2) (mkPerson "C" 5)).
  - exact valid_classic.
  - simpl. lia.
  - reflexivity.
  - reflexivity.
  - reflexivity.
  - reflexivity.
Defined.

(** ** Which of several fastest people is picked *)

(** When the scan moves away from its starting candidate, everybody before
    the person it ends on is strictly slower than that person. *)
Lemma findFastest_first rest : ∀ i f idx,
  (findFastest rest i f idx = (f, idx) ∧ Forall (speed_le f) rest) ∨
  (∃ (k : nat) p, rest !! k = Some p ∧
      findFastest rest i f idx = (p, i + Z.of_nat k) ∧
      getSpeed p < getSpeed f ∧ Forall (speed_le p) rest ∧
      Forall (λ q, getSpeed p < getSpeed q) (take k rest)).
Proof.
  induction rest as [|h rest IH]; intros i f idx; simpl.
  - left. split; [done|constructor].
  - destruct (Z.ltb_spec (getSpeed h) (getSpeed f)) as [Hlt|Hge].
    + rewrite copy_fields. right.
      destruct (IH (i + 1) h i)
        as [[-> Hall]|(k & p' & Hk & -> & Hlt' & Hall & Hpre)].
      * exists 0%nat, h. split; [done|]. split; [f_equal; lia|].
        split; [done|]. split; [by constructor|constructor].
      * exists (S k), p'. split; [done|]. split; [f_equal; lia|].
        split; [lia|]. split.
        -- constructor; [unfold speed_le; lia|done].
        -- simpl. by constructor.
    + destruct (IH (i + 1) f idx)
        as [[-> Hall]|(k & p' & Hk & -> & Hlt' & Hall & Hpre)].
      * left. split; [done|]. by constructor.
      * right. exists (S k), p'. split; [done|]. split; [f_equal; lia|].
        split; [done|]. split.
        -- constructor; [unfold speed_le; lia|done].
        -- simpl. constructor; [lia|done].
Qed.

(** X7.  Among several people of the least speed [crossNaively] picks the
    first in roster order: on a roster of two or more people with positive
    [int] speeds, the person [f] named in its "Fastest overall person" line
    stands at an index [i] of the roster, nobody is faster than [f], and
    everybody before index [i] is strictly slower. *)
Theorem crossNaively_picks_first_fastest b t out b' :
  valid_roster (waitingPeople b) → (2 ≤ length (waitingPeople b))%nat →
  crossNaively b = Some (t, out, b') →
  ∃ (i : nat) f,
    out !! 1%nat = Some (FastestIs f) ∧
    waitingPeople b !! i = Some f ∧
    Forall (speed_le f) (waitingPeople b) ∧
    Forall (λ q, getSpeed f < getSpeed q) (take i (waitingPeople b)).
Proof.
  intros Hv Hlen Hrun. unfold crossNaively in Hrun.
  rewrite !decide_False in Hrun by lia.
  set (sentinel := setSpeed INT_MAX (setName "maxint" Person_new)) in Hrun.
  destruct (findFastest_first (waitingPeople b) 0 sentinel (-1))
    as [[Hff Hall]|(k & f & Hk & Hff & Hlt & Hall & Hpre)];
    rewrite Hff in Hrun.
  - exfalso. rewrite fillQueue_skip in Hrun by lia. simpl app at 1 in Hrun.
    destruct (processQueue _ _ _ _) as [[t0 out0]|] eqn:E; [|done].
    apply processQueue_Some in E as (E & Hr & _).
    2:{ intros Hnil. rewrite Hnil in Hlen. simpl in Hlen. lia. }
    assert (Hlow : Forall (λ p, INT_MAX ≤ getSpeed p) (waitingPeople b)).
    { eapply Forall_impl; [exact Hall|]. done. }
    apply speedSum_lower in Hlow. simpl in E. unfold INT_MAX in *. nia.
  - destruct (processQueue _ _ _ _) as [[t0 out0]|] eqn:E; [|done].
    injection Hrun as <- <- <-.
    apply processQueue_Some in E as (_ & _ & ->).
    2:{ rewrite (fillQueue_delete _ _ _ _ _ Hk). simpl.
        intros Hnil. apply (f_equal length) in Hnil.
        rewrite length_delete in Hnil by eauto. simpl in Hnil. lia. }
    exists k, f. done.
Qed.

Lemma crossNaively_picks_first_fastest_witness :
  ∃ (i : nat) f,
    (naiveHeader (mkPerson "A" 3) ++
     naiveEvents (mkPerson "A" 3) [mkPerson "Z" 4; mkPerson "B" 3]) !! 1%nat
      = Some (FastestIs f) ∧
    [mkPerson "Z" 4; mkPerson "A" 3; mkPerson "B" 3] !! i = Some f ∧
    Forall (speed_le f) [mkPerson "Z" 4; mkPerson "A" 3; mkPerson "B" 3] ∧
    Forall (λ q, getSpeed f < getSpeed q)
      (take i [mkPerson "Z" 4; mkPerson "A" 3; mkPerson "B" 3]).
Proof.
  apply (crossNaively_picks_first_fastest
           (mkBridge [mkPerson "Z" 4; mkPerson "A" 3; mkPerson "B" 3]) 10 _
           (mkBridge [mkPerson "Z" 4; mkPerson "A" 3; mkPerson "B" 3])).
  - repeat constructor; unfold INT_MAX; simpl; lia.
  - simpl. lia.
  - reflexivity.
Defined.

(** ** Who carries the torch back *)

Lemma naiveEvents_escort f q l :
  l ∈ naiveEvents f q → (∃ p, l = CrossTwo p f) ∨ l = Returns f.
Proof.
  induction q as [|p q IH]; [by intros ?%elem_of_nil|].
  destruct q as [|p' q].
  - intros ->%list_elem_of_singleton. eauto.
  - change (naiveEvents f (p :: p' :: q))
      with (CrossTwo p f :: Returns f :: naiveEvents f (p' :: q)).
    rewrite !elem_of_cons. intros [->|[->|Hl]]; eauto.
Qed.

Lemma processQueue_log f q : ∀ t out t' out',
  processQueue f q t out = Some (t', out') → out' = out ++ naiveEvents f q.
Proof.
  destruct q as [|p q]; intros t out t' out' Hrun.
  - simpl in Hrun. injection Hrun as <- <-. by rewrite app_nil_r.
  - by apply processQueue_Some in Hrun as (_ & _ & ->).
Qed.




(** X9.  In the log of [crossNaively] the person named in the line
    "Fastest overall person" escorts everybody: every crossing is a
    pair whose second is that person, every return is that person's, and
    nobody crosses alone. *)
Theorem crossNaively_escort b t out b' l :
  crossNaively b = Some (t, out, b') →
  l ∈ out →
  match l with
  | CrossTwo _ f | Returns f => out !! 1%nat = Some (FastestIs f)
  | CrossOne _ => False
  | _ => True
  end.
Proof.
  unfold crossNaively. intros Hrun Hin. repeat case_decide.
  - injection Hrun as _ <- _. by apply elem_of_nil in Hin.
  - destruct (_ !! _); [|done]. injection Hrun as _ <- _.
    by apply elem_of_nil in Hin.
  - destruct (findFastest _ _ _ _) as [f i].
    destruct (processQueue _ _ _ _) as [[t0 o]|] eqn:E; [|done].
    injection Hrun as _ <- _. apply processQueue_log in E as ->.
    apply elem_of_app in Hin as [Hin|Hin].
    + cbn [app] in Hin. rewrite !elem_of_cons, elem_of_nil in Hin.
      by destruct Hin as [->|[->|[->|[->|?]]]].
    + by apply naiveEvents_escort in Hin as [[p ->]| ->].
Qed.

Lemma crossNaively_escort_witness :
  [Endl; FastestIs (mkPerson "A" 1); Endl;
   Heading "Naive sequence of bridge crossings:";
   CrossTwo (mkPerson "B" 2) (mkPerson "A" 1); Returns (mkPerson "A" 1);
   CrossTwo (mkPerson "C" 5) (mkPerson "A" 1); Returns (mkPerson "A" 1);
   CrossTwo (mkPerson "D" 10) (mkPerson "A" 1)] !! 1%nat
  = Some (FastestIs (mkPerson "A" 1)).
Proof.
  apply (crossNaively_escort classic 19 _ classic
           (Returns (mkPerson "A" 1))).
  - vm_compute. reflexivity.
  - do 5 right. left.
Defined.

(** ** Arguments::getArgs *)

Lemma token_idem s : token (token s) = token s.
Proof.
  induction s as [|c s IH]; simpl; [done|].
  destruct (isspace c) eqn:E; simpl; [done|]. by rewrite E, IH.
Qed.

Lemma extract_word src dst :
  token dst = dst → token (extract src dst) = extract src dst.
Proof.
  intros Hd. unfold extract. destruct (skipws src); [done|apply token_idem].
Qed.

Lemma handleOption_flags a r a' o :
  handleOption a r = Some (a', o) →
  (help a' = true ↔ help a = true ∨ opt r = 104) ∧
  (abort a' = true ↔
     abort a = true ∨ opt r = 104 ∨ opt r = 63 ∨ opt r = 58) ∧
  progName a' = progName a.
Proof.
  unfold handleOption. intros H.
  repeat case_decide.
  - destruct (longopts !! _) as [[name v]|]; [|done]. injection H as <- <-.
    repeat split; intros; try tauto; destruct_or?; try done; lia.
  - destruct (optarg r); [|done]. injection H as <- <-. simpl.
    repeat split; intros; try tauto; destruct_or?; try done; lia.
  - injection H as <- <-. simpl. repeat split; intros; try tauto.
  - injection H as <- <-. simpl.
    repeat split; intros; try tauto; destruct_or?; try done; lia.
  - injection H as <- <-. simpl.
    repeat split; intros; try tauto; destruct_or?; try done; lia.
  - injection H as <- <-.
    repeat split; intros; try tauto; destruct_or?; try done; lia.
Qed.

Lemma handleOption_word a r a' o :
  handleOption a r = Some (a', o) →
  token (peopleFilename a) = peopleFilename a →
  token (peopleFilename a') = peopleFilename a'.
Proof.
  unfold handleOption. intros H Hw.
  repeat case_decide; try (by injection H as <- <-).
  - destruct (longopts !! _) as [[name v]|]; [|done]. by injection H as <- <-.
  - destruct (optarg r); [|done]. injection H as <- <-. simpl.
    by apply extract_word.
Qed.

Lemma handleOption_other a r a' o :
  handleOption a r = Some (a', o) → opt r ≠ 112 →
  peopleFilename a' = peopleFilename a.
Proof.
  unfold handleOption. intros H Hp.
  repeat case_decide; try done; try (by injection H as <- <-).
  destruct (longopts !! _) as [[name v]|]; [|done]. by injection H as <- <-.
Qed.

Lemma optionLoop_flags rs : ∀ a out a' out',
  optionLoop rs a out = Some (a', out') →
  (help a' = true ↔ help a = true ∨ Exists (λ r, opt r = 104) rs) ∧
  (abort a' = true ↔
     abort a = true ∨
     Exists (λ r, opt r = 104 ∨ opt r = 63 ∨ opt r = 58) rs) ∧
  progName a' = progName a.
Proof.
  induction rs as [|r rs IH]; intros a out a' out' H; simpl in H.
  - injection H as <- <-. rewrite !Exists_nil. tauto.
  - destruct (handleOption a r) as [[a1 o]|] eqn:E; [|done].
    cbn [mbind option_bind] in H.
    apply handleOption_flags in E as (E1 & E2 & E3).
    apply IH in H as (H1 & H2 & H3).
    rewrite !Exists_cons, H1, H2, E1, E2, H3, E3. tauto.
Qed.

Lemma optionLoop_word rs : ∀ a out a' out',
  optionLoop rs a out = Some (a', out') →
  token (peopleFilename a) = peopleFilename a →
  token (peopleFilename a') = peopleFilename a'.
Proof.
  induction rs as [|r rs IH]; intros a out a' out' H Hw; simpl in H.
  - by injection H as <- <-.
  - destruct (handleOption a r) as [[a1 o]|] eqn:E; [|done].
    cbn [mbind option_bind] in H.
    eapply IH; [exact H|]. by eapply handleOption_word.
Qed.

Lemma optionLoop_other rs : ∀ a out a' out',
  optionLoop rs a out = Some (a', out') →
  Forall (λ r, opt r ≠ 112) rs →
  peopleFilename a' = peopleFilename a.
Proof.
  induction rs as [|r rs IH]; intros a out a' out' H Hno; simpl in H.
  - by injection H as <- <-.
  - destruct (handleOption a r) as [[a1 o]|] eqn:E; [|done].
    cbn [mbind option_bind] in H.
    apply Forall_cons_1 in Hno as [Hr Hno].
    rewrite (IH _ _ _ _ H Hno). by eapply handleOption_other.
Qed.

Lemma optionLoop_app rs1 rs2 a out :
  optionLoop (rs1 ++ rs2) a out =
  '(a1, out1) ← optionLoop rs1 a out; optionLoop rs2 a1 out1.
Proof.
  revert a out. induction rs1 as [|r rs1 IH]; intros a out; simpl; [done|].
  destruct (handleOption a r) as [[a1 o]|]; simpl; [apply IH|done].
Qed.

Lemma getArgs_Some argv0 rs rest a out :
  getArgs argv0 rs rest Arguments_new = Some (a, out) →
  ∃ a1,
    optionLoop rs (mkArguments false false (extract argv0 EmptyString)
                     EmptyString) []
      = Some (a1, take (length out - (if decide (rest = []) then 0 else 1))
                    out) ∧
    help a = help a1 ∧ progName a = progName a1 ∧
    peopleFilename a = peopleFilename a1 ∧
    (abort a = true ↔ abort a1 = true ∨ rest ≠ []).
Proof.
  unfold getArgs. simpl. intros H.
  destruct (optionLoop rs _ []) as [[a1 o]|] eqn:E; [|done].
  cbn [mbind option_bind] in H. exists a1.
  destruct (decide (rest = [])) as [->|Hrest].
  - injection H as <- <-. rewrite Nat.sub_0_r, firstn_all.
    split; [done|]. repeat split; try done; tauto.
  - injection H as <- <-. simpl.
    rewrite length_app. simpl. rewrite Nat.add_sub, take_app_length.
    split; [done|]. repeat split; try done; tauto.
Qed.

(** X10.  What sets the flags of [getArgs]: [help] is set exactly when
    [getopt_long] reported an [h]; [abort] is set exactly when it reported an
    [h], a [?] or a [:], or when arguments are left over after the options.
    So [help] never comes without [abort]. *)
Theorem getArgs_flags argv0 rs rest a out :
  getArgs argv0 rs rest Arguments_new = Some (a, out) →
  (help a = true ↔ Exists (λ r, opt r = 104) rs) ∧
  (abort a = true ↔
     Exists (λ r, opt r = 104 ∨ opt r = 63 ∨ opt r = 58) rs ∨ rest ≠ []) ∧
  (help a = true → abort a = true).
Proof.
  intros H. apply getArgs_Some in H as (a1 & Hloop & Hh & _ & _ & Hab).
  apply optionLoop_flags in Hloop as (H1 & H2 & _). simpl in H1, H2.
  rewrite Hh, Hab, H1, H2.
  assert (Himp : Exists (λ r, opt r = 104) rs →
                 Exists (λ r, opt r = 104 ∨ opt r = 63 ∨ opt r = 58) rs).
  { intros HE. eapply Exists_impl; [exact HE|]. simpl. tauto. }
  repeat split; intros; try tauto; destruct_or?; try done; auto.
Qed.

Lemma getArgs_flags_witness :
  (true = true ↔ Exists (λ r, opt r = 104) [mkGetopt 104 None 1]) ∧
  (true = true ↔
     Exists (λ r, opt r = 104 ∨ opt r = 63 ∨ opt r = 58) [mkGetopt 104 None 1]
     ∨ @nil string ≠ []) ∧
  (true = true → true = true).
Proof.
  apply (getArgs_flags "cross-bridge" [mkGetopt 104 None 1] []
           (mkArguments true true "cross-bridge" EmptyString) []).
  reflexivity.
Defined.

(** X11.  What [getArgs] stores as the file name is one word: it holds no
    white space, and it is the first word of the argument of the last
    [--people] option, provided that argument holds a word.  A path with a
    space in it is cut at the space. *)
Theorem getArgs_filename_is_a_word argv0 rs rest a out :
  getArgs argv0 rs rest Arguments_new = Some (a, out) →
  token (peopleFilename a) = peopleFilename a ∧
  ∀ rs1 s idx rs2,
    rs = rs1 ++ mkGetopt 112 (Some s) idx :: rs2 →
    Forall (λ r, opt r ≠ 112) rs2 →
    skipws s ≠ EmptyString →
    peopleFilename a = token (skipws s).
Proof.
  intros H. apply getArgs_Some in H as (a1 & Hloop & _ & _ & -> & _).
  split.
  - by eapply optionLoop_word.
  - intros rs1 s idx rs2 -> Hno Hs.
    rewrite optionLoop_app in Hloop.
    destruct (optionLoop rs1 _ _) as [[a0 o0]|]; [|done].
    cbn [mbind option_bind] in Hloop. cbn [optionLoop] in Hloop.
    unfold handleOption at 1 in Hloop. simpl in Hloop.
    rewrite (optionLoop_other _ _ _ _ _ Hloop Hno). simpl.
    unfold extract. by destruct (skipws s).
Qed.

Lemma getArgs_filename_is_a_word_witness :
  token "my" = "my" ∧
  ∀ rs1 s idx rs2,
    [mkGetopt 112 (Some "my file.yaml") 0]
      = rs1 ++ mkGetopt 112 (Some s) idx :: rs2 →
    Forall (λ r, opt r ≠ 112) rs2 →
    skipws s ≠ EmptyString →
    "my" = token (skipws s).
Proof.
  apply (getArgs_filename_is_a_word "cross-bridge"
           [mkGetopt 112 (Some "my file.yaml") 0] []
           (mkArguments false false "cross-bridge" "my") []).
  reflexivity.
Defined.

(** ** Bridge::readPeopleFile and main *)

Lemma converts_person y p :
  converts y p →
  ∃ n s, nameAs y = Some n ∧ speedAs y = Some s ∧
         setSpeed s (setName n Person_new) = p.
Proof.
  intros [Hn Hs]. exists (getName p), (getSpeed p). by destruct p.
Qed.

Lemma plain_Heading s : plain (Heading s).
Proof. right. by exists s. Qed.

Lemma plain_Endl : plain Endl.
Proof. by left. Qed.

Lemma readLoop_all people : ∀ ps i w out,
  Forall2 converts people ps →
  ∃ out', readLoop people i w out = Done (out ++ out', w ++ ps) ∧
          length out' = length people ∧ Forall plain out'.
Proof.
  induction people as [|y people IH]; intros ps i w out Hc.
  - apply Forall2_nil_inv_l in Hc as ->. exists []. by rewrite !app_nil_r.
  - apply Forall2_cons_inv_l in Hc as (p & ps' & Hy & Hc & ->).
    apply converts_person in Hy as (n & s & Hn & Hs & Hp).
    cbn [readLoop]. rewrite Hn, Hs, Hp.
    destruct (IH ps' (i + 1) (w ++ [p]) (out ++ [Heading
      ("Person " +:+ show_int i +:+ " -  Name: " +:+ nameNode y +:+
       "  Speed: " +:+ speedNode y)]) Hc) as (out' & -> & Hlen & Hpl).
    eexists (_ :: out'). rewrite <- !app_assoc. simpl.
    split; [done|]. split; [by rewrite Hlen|].
    constructor; [apply plain_Heading|done].
Qed.

Lemma readLoop_app good : ∀ ps rest i w out,
  Forall2 converts good ps →
  ∃ out', readLoop (good ++ rest) i w out =
            readLoop rest (i + Z.of_nat (length good)) (w ++ ps)
              (out ++ out') ∧
          length out' = length good ∧ Forall plain out'.
Proof.
  induction good as [|y good IH]; intros ps rest i w out Hc.
  - apply Forall2_nil_inv_l in Hc as ->. exists []. simpl.
    by rewrite !app_nil_r, Z.add_0_r.
  - apply Forall2_cons_inv_l in Hc as (p & ps' & Hy & Hc & ->).
    apply converts_person in Hy as (n & s & Hn & Hs & Hp).
    cbn [readLoop app]. rewrite Hn, Hs, Hp.
    destruct (IH ps' rest (i + 1) (w ++ [p]) (out ++ [Heading
      ("Person " +:+ show_int i +:+ " -  Name: " +:+ nameNode y +:+
       "  Speed: " +:+ speedNode y)]) Hc) as (out' & -> & Hlen & Hpl).
    eexists (_ :: out'). rewrite <- !app_assoc. simpl.
    split; [f_equal; lia|]. split; [by rewrite Hlen|].
    constructor; [apply plain_Heading|done].
Qed.

Lemma readPeopleFile_bad good ps bad rest b :
  Forall2 converts good ps →
  nameAs bad = None ∨ speedAs bad = None →
  ∃ out, readPeopleFile (Some (good ++ bad :: rest)) b = Threw out ∧
         length out = (3 + length good)%nat ∧ Forall plain out ∧
         last out = Some (Heading
           ("Person " +:+ show_int (Z.of_nat (length good)) +:+
            " -  Name: " +:+ nameNode bad +:+
            "  Speed: " +:+ speedNode bad)).
Proof.
  intros Hc Hbad. unfold readPeopleFile.
  destruct (readLoop_app good ps (bad :: rest) 0 (waitingPeople b)
    [Endl; Heading (if decide (0 < length (good ++ bad :: rest))%nat
                    then "List of all people:"
                    else "No people found in YAML input file")] Hc)
    as (out' & -> & Hlen & Hpl).
  cbn [readLoop].
  eexists. split.
  - destruct (nameAs bad); [|done].
    destruct Hbad as [? | ->]; done.
  - split; [rewrite !length_app; simpl; lia|]. split.
    + rewrite !Forall_app. split; [split; [|done]|];
        repeat first [apply plain_Heading | apply plain_Endl | constructor].
    + by rewrite last_snoc.
Qed.

Lemma getArgs_help_abort argv0 rs rest a o :
  getArgs argv0 rs rest Arguments_new = Some (a, o) →
  abort a = false → help a = false.
Proof.
  intros H Hab. apply getArgs_Some in H as (a1 & Hloop & Hh & _ & _ & Ha).
  apply optionLoop_flags in Hloop as (H1 & H2 & _). simpl in H1, H2.
  destruct (help a) eqn:E; [|done]. exfalso.
  assert (abort a = true); [|congruence].
  apply Ha. left. apply H2. right. symmetry in Hh.
  apply H1 in Hh as [?|Hex]; [done|].
  eapply Exists_impl; [exact Hex|]. simpl. tauto.
Qed.

Lemma crossNaively_same_bridge b t out b' :
  crossNaively b = Some (t, out, b') → b' = b.
Proof.
  unfold crossNaively. intros H. repeat case_decide.
  - by injection H as _ _ <-.
  - destruct (_ !! _); [|done]. by injection H as _ _ <-.
  - destruct (findFastest _ _ _ _) as [f i].
    destruct (processQueue _ _ _ _) as [[t0 o]|]; [|done].
    by injection H as _ _ <-.
Qed.

(** X12.  After [--help], after an option that [getopt_long] rejected, and
    when arguments are left over, [main] returns before it reads any file:
    the run ends normally, its output is the first line, what [getArgs]
    printed and the usage line if help was asked for, and it is the same
    whatever the files hold. *)
Theorem program_stops_before_reading argv0 rs rest load res :
  Exists (λ r, opt r = 104 ∨ opt r = 63 ∨ opt r = 58) rs ∨ rest ≠ [] →
  program argv0 rs rest load = Some res →
  ∃ a o,
    getArgs argv0 rs rest Arguments_new = Some (a, o) ∧
    res = Done ([Heading "Running..."] ++ o ++
                (if help a then printHelp a else [])) ∧
    ∀ load', program argv0 rs rest load' = Some res.
Proof.
  intros Hstop. unfold program.
  destruct (getArgs argv0 rs rest Arguments_new) as [[a o]|] eqn:E; [|done].
  cbn [mbind option_bind]. intros H. exists a, o. split; [done|].
  assert (Hab : abort a = true).
  { apply getArgs_Some in E as (a1 & Hloop & _ & _ & _ & Hab).
    apply optionLoop_flags in Hloop as (_ & H2 & _). simpl in H2.
    apply Hab. rewrite H2. tauto. }
  rewrite Hab in H |- *. injection H as <-.
  split; [|done]. destruct (help a); simpl; [done|by rewrite app_nil_r].
Qed.

Lemma program_stops_before_reading_witness :
  ∃ a o,
    getArgs "cross-bridge" [mkGetopt 104 None 1] [] Arguments_new
      = Some (a, o) ∧
    Done [Heading "Running...";
          Heading "Usage: cross-bridge --people <filename> [--help]"]
      = Done ([Heading "Running..."] ++ o ++
              (if help a then printHelp a else [])) ∧
    ∀ load', program "cross-bridge" [mkGetopt 104 None 1] [] load'
      = Some (Done [Heading "Running...";
          Heading "Usage: cross-bridge --people <filename> [--help]"]).
Proof.
  apply (program_stops_before_reading "cross-bridge" [mkGetopt 104 None 1] []
           (λ _, None)).
  - left. constructor. by left.
  - reflexivity.
Defined.

(** X13.  Without a [--people] option (and with nothing that makes the run
    abort) the file name is still empty: [main] prints the line about the
    missing option after what [getArgs] printed, ends normally and reads no
    file. *)
Theorem program_missing_people argv0 rs load res :
  Forall (λ r, opt r ≠ 112 ∧ opt r ≠ 104 ∧ opt r ≠ 63 ∧ opt r ≠ 58) rs →
  program argv0 rs [] load = Some res →
  ∃ a o,
    getArgs argv0 rs [] Arguments_new = Some (a, o) ∧
    progName a = extract argv0 EmptyString ∧
    res = Done ([Heading "Running..."] ++ o ++
                [Heading (progName a +:+
                          ": ERROR: Missing option peopleFile")]) ∧
    ∀ load', program argv0 rs [] load' = Some res.
Proof.
  intros Hno. unfold program.
  destruct (getArgs argv0 rs [] Arguments_new) as [[a o]|] eqn:E; [|done].
  cbn [mbind option_bind]. intros H. exists a, o. split; [done|].
  pose proof (getArgs_Some _ _ _ _ _ E) as (a1 & Hloop & Hh & Hpn & Hfn & Hab).
  pose proof (optionLoop_flags _ _ _ _ _ Hloop) as (H1 & H2 & H3).
  simpl in H1, H2, H3.
  assert (Hother : Forall (λ r, opt r ≠ 112) rs).
  { eapply Forall_impl; [exact Hno|]. simpl. tauto. }
  pose proof (optionLoop_other _ _ _ _ _ Hloop Hother) as Hf. simpl in Hf.
  assert (Hnab : abort a = false).
  { destruct (abort a); [|done]. exfalso.
    destruct Hab as [Hab _]. destruct (Hab eq_refl) as [Hab'|Hr]; [|done].
    apply H2 in Hab' as [?|Hex]; [done|].
    apply Exists_exists in Hex as (r & Hin & Hr).
    rewrite Forall_forall in Hno. specialize (Hno r Hin). tauto. }
  pose proof (getArgs_help_abort _ _ _ _ _ E Hnab) as Hnh.
  rewrite Hnab, Hnh, Hfn, Hf, decide_True in H by done. injection H as <-.
  split; [by rewrite Hpn, H3|]. split; [done|]. intros load'.
  by rewrite Hnab, Hnh, Hfn, Hf, decide_True.
Qed.

Lemma program_missing_people_witness :
  ∃ a o,
    getArgs "./cross-bridge" [] [] Arguments_new = Some (a, o) ∧
    progName a = extract "./cross-bridge" EmptyString ∧
    Done [Heading "Running...";
          Heading "./cross-bridge: ERROR: Missing option peopleFile"]
      = Done ([Heading "Running..."] ++ o ++
              [Heading (progName a +:+
                        ": ERROR: Missing option peopleFile")]) ∧
    ∀ load', program "./cross-bridge" [] [] load'
      = Some (Done [Heading "Running...";
          Heading "./cross-bridge: ERROR: Missing option peopleFile"]).
Proof.
  apply (program_missing_people "./cross-bridge" [] (λ _, None)).
  - constructor.
  - reflexivity.
Defined.

(** X14.  [readPeopleFile] on a file whose entries all convert: the people
    are appended to the vector in the order of the file, behind who was
    there, with the names and speeds as converted; no speed is refused, be
    it zero or negative.  The output is the two opening lines and one line
    for each entry. *)
Theorem readPeopleFile_appends people ps b :
  Forall2 converts people ps →
  ∃ out,
    readPeopleFile (Some people) b
      = Done (out, mkBridge (waitingPeople b ++ ps)) ∧
    length out = (2 + length people)%nat.
Proof.
  intros Hc. unfold readPeopleFile.
  destruct (readLoop_all people ps 0 (waitingPeople b)
    [Endl; Heading (if decide (0 < length people)%nat
                    then "List of all people:"
                    else "No people found in YAML input file")] Hc)
    as (out' & -> & Hlen & _).
  eexists. split; [done|]. simpl. by rewrite Hlen.
Qed.

Lemma readPeopleFile_appends_witness :
  ∃ out,
    readPeopleFile
      (Some [mkYamlPerson "A" "0" (Some "A") (Some 0);
             mkYamlPerson "B" "-3" (Some "B") (Some (-3))])
      (mkBridge [mkPerson "Z" 7])
      = Done (out, mkBridge (waitingPeople (mkBridge [mkPerson "Z" 7]) ++
                             [mkPerson "A" 0; mkPerson "B" (-3)])) ∧
    length out = 4%nat.
Proof.
  apply (readPeopleFile_appends
           [mkYamlPerson "A" "0" (Some "A") (Some 0);
            mkYamlPerson "B" "-3" (Some "B") (Some (-3))]
           [mkPerson "A" 0; mkPerson "B" (-3)] (mkBridge [mkPerson "Z" 7])).
  repeat constructor.
Defined.

(** X15.  When the file cannot be loaded, or an entry has a name or a speed
    that does not convert, the exception ends the program: the entries
    before the first bad one were listed, the bad one's line is the last
    line printed, neither solver runs and no total is reported. *)
Theorem program_ends_on_bad_file argv0 rs rest load a o :
  getArgs argv0 rs rest Arguments_new = Some (a, o) →
  abort a = false →
  peopleFilename a ≠ EmptyString →
  (load (peopleFilename a) = None →
   program argv0 rs rest load = Some (Threw ([Heading "Running..."] ++ o))) ∧
  ∀ good ps bad rest',
    load (peopleFilename a) = Some (good ++ bad :: rest') →
    Forall2 converts good ps →
    nameAs bad = None ∨ speedAs bad = None →
    ∃ out,
      program argv0 rs rest load
        = Some (Threw ([Heading "Running..."] ++ o ++ out)) ∧
      Forall plain out ∧
      length out = (3 + length good)%nat ∧
      last out = Some (Heading
        ("Person " +:+ show_int (Z.of_nat (length good)) +:+
         " -  Name: " +:+ nameNode bad +:+
         "  Speed: " +:+ speedNode bad)).
Proof.
  intros Hargs Hab Hfn.
  pose proof (getArgs_help_abort _ _ _ _ _ Hargs Hab) as Hh.
  unfold program. rewrite Hargs. cbn [mbind option_bind].
  rewrite Hab, Hh, decide_False by done. split.
  - intros ->. simpl. by rewrite app_nil_r.
  - intros good ps bad rest' -> Hc Hbad.
    destruct (readPeopleFile_bad good ps bad rest' (mkBridge []) Hc Hbad)
      as (out & -> & Hlen & Hpl & Hlast).
    exists out. by rewrite <- app_assoc.
Qed.

Lemma program_ends_on_bad_file_witness :
  (disk badYaml "people.yaml" = None →
   program "cross-bridge" [mkGetopt 112 (Some "people.yaml") 0] []
     (disk badYaml) = Some (Threw ([Heading "Running..."] ++ []))) ∧
  ∀ good ps bad rest',
    disk badYaml "people.yaml" = Some (good ++ bad :: rest') →
    Forall2 converts good ps →
    nameAs bad = None ∨ speedAs bad = None →
    ∃ out,
      program "cross-bridge" [mkGetopt 112 (Some "people.yaml") 0] []
        (disk badYaml) = Some (Threw ([Heading "Running..."] ++ [] ++ out)) ∧
      Forall plain out ∧
      length out = (3 + length good)%nat ∧
      last out = Some (Heading
        ("Person " +:+ show_int (Z.of_nat (length good)) +:+
         " -  Name: " +:+ nameNode bad +:+
         "  Speed: " +:+ speedNode bad)).
Proof.
  apply (program_ends_on_bad_file "cross-bridge"
           [mkGetopt 112 (Some "people.yaml") 0] [] (disk badYaml)
           (mkArguments false false "cross-bridge" "people.yaml") []).
  - reflexivity.
  - reflexivity.
  - discriminate.
Defined.

(** X16.  A run on a file whose entries all convert, to positive speeds
    whose doubled sum fits in an [int]: the program ends normally, and its
    output is, in this order, the first line, what [getArgs] printed, the
    listing of the file, the log of [crossNaively] and its total, the log of
    [crossOptimally] and its total, both solvers having worked on the people
    of the file in the order of the file. *)
Theorem program_reports_totals argv0 rs rest load a o people ps :
  getArgs argv0 rs rest Arguments_new = Some (a, o) →
  abort a = false →
  peopleFilename a ≠ EmptyString →
  load (peopleFilename a) = Some people →
  Forall2 converts people ps →
  valid_roster ps →
  2 * speedSum ps ≤ INT_MAX →
  ∃ listing tn on to oo,
    length listing = (2 + length people)%nat ∧
    crossNaively (mkBridge ps) = Some (tn, on, mkBridge ps) ∧
    crossOptimally (mkBridge ps) = Some (to, oo, mkBridge []) ∧
    program argv0 rs rest load
      = Some (Done ([Heading "Running..."] ++ o ++ listing ++
                    on ++ [Endl; Total "The naive fastest total time is: " tn]
                    ++ oo ++
                    [Endl; Total "The optimal fastest total time is: " to])).
Proof.
  intros Hargs Hab Hfn Hload Hc Hv Hfit.
  pose proof (getArgs_help_abort _ _ _ _ _ Hargs Hab) as Hh.
  destruct (solvers_defined (mkBridge ps) Hv Hfit)
    as [[[[tn on] bn] Hn] [[[to oo] bo] Ho]].
  pose proof (crossNaively_same_bridge _ _ _ _ Hn) as ->.
  pose proof Ho as Ho'. apply crossOptimally_Some in Ho' as [_ ->].
  destruct (readLoop_all people ps 0 []
    [Endl; Heading (if decide (0 < length people)%nat
                    then "List of all people:"
                    else "No people found in YAML input file")] Hc)
    as (out' & Hread & Hlen & _).
  exists ([Endl; Heading (if decide (0 < length people)%nat
                          then "List of all people:"
                          else "No people found in YAML input file")] ++ out'),
    tn, on, to, oo.
  split; [simpl; by rewrite Hlen|]. split; [exact Hn|]. split; [exact Ho|].
  unfold program. rewrite Hargs. cbn [mbind option_bind].
  rewrite Hab, Hh, decide_False, Hload by done.
  unfold readPeopleFile. cbn [waitingPeople]. rewrite Hread.
  cbn [app]. unfold main. rewrite Hn. cbn [mbind option_bind]. rewrite Ho.
  cbn [mbind option_bind]. do 4 f_equal. by rewrite <- !app_assoc.
Qed.

Lemma program_reports_totals_witness :
  ∃ listing tn on to oo,
    length listing = (2 + length demoYaml)%nat ∧
    crossNaively classic = Some (tn, on, classic) ∧
    crossOptimally classic = Some (to, oo, mkBridge []) ∧
    program "cross-bridge" [mkGetopt 112 (Some "people.yaml") 0] []
      (disk demoYaml)
      = Some (Done ([Heading "Running..."] ++ [] ++ listing ++
                    on ++ [Endl; Total "The naive fastest total time is: " tn]
                    ++ oo ++
                    [Endl; Total "The optimal fastest total time is: " to])).
Proof.
  apply (program_reports_totals "cross-bridge"
           [mkGetopt 112 (Some "people.yaml") 0] [] (disk demoYaml)
           (mkArguments false false "cross-bridge" "people.yaml") []
           demoYaml (waitingPeople classic)).
  - reflexivity.
  - reflexivity.
  - discriminate.
  - reflexivity.
  - repeat constructor.
  - apply valid_classic.
  - vm_compute. discriminate.
Defined.

(** ** Person::print *)

Lemma occurs_app c s t : occurs c (s +:+ t) = occurs c s || occurs c t.
Proof.
  induction s as [|d s IH]; simpl; [done|]. by case_decide.
Qed.

Lemma occurs_digits c d :
  (c = "," ∨ c = ")")%char → occurs c (NilEmpty.string_of_uint d) = false.
Proof.
  intros Hc. induction d; simpl; [done|..];
    (rewrite decide_False; [done|destruct Hc as [-> | ->]; discriminate]).
Qed.

Lemma occurs_show_int c z :
  (c = "," ∨ c = ")")%char → occurs c (show_int z) = false.
Proof.
  intros Hc. unfold show_int, NilZero.string_of_int, NilZero.string_of_uint.
  assert (H0 : occurs c "0" = false).
  { simpl. rewrite decide_False; [done|].
    destruct Hc as [-> | ->]; discriminate. }
  assert (Hm : c ≠ "-"%char) by (destruct Hc as [-> | ->]; discriminate).
  destruct (Z.to_int z) as [d|d]; simpl; rewrite ?decide_False by done;
    (destruct d; [exact H0|apply (occurs_digits c); exact Hc..]).
Qed.

(** A string splits in one way only at a character that does not occur
    behind the split. *)
Lemma split_unique c : ∀ a1 a2 t1 t2,
  occurs c t1 = false → occurs c t2 = false →
  a1 +:+ String c t1 = a2 +:+ String c t2 → a1 = a2 ∧ t1 = t2.
Proof.
  induction a1 as [|x a1 IH]; intros [|y a2] t1 t2 H1 H2 H; simpl in H.
  - by injection H as ->.
  - injection H as -> ->. rewrite occurs_app in H1. simpl in H1.
    rewrite decide_True, orb_true_r in H1 by done. done.
  - injection H as -> <-. rewrite occurs_app in H2. simpl in H2.
    rewrite decide_True, orb_true_r in H2 by done. done.
  - injection H as -> H. destruct (IH _ _ _ H1 H2 H) as [-> ->]. done.
Qed.

Lemma show_int_inj z1 z2 : show_int z1 = show_int z2 → z1 = z2.
Proof.
  assert (Hback : ∀ z, Z.of_int <$> NilZero.int_of_string (show_int z)
                       = Some z).
  { intros z. unfold show_int. rewrite <- (of_to z) at 2.
    destruct (Z.to_int z) as [[|d|d|d|d|d|d|d|d|d|d]|[|d|d|d|d|d|d|d|d|d|d]];
      try (by rewrite NilZero.isi);
      [by rewrite NilZero.isi_posnil|by rewrite NilZero.isi_negnil]. }
  intros H. pose proof (Hback z1) as H1. rewrite H, Hback in H1.
  by injection H1.
Qed.

(** X17.  [Person::print] tells people apart: two people whose printed forms
    are the same have the same name and the same speed, whatever characters
    the names hold, commas and parentheses included. *)
Theorem print_inj p q : print p = print q → p = q.
Proof.
  destruct p as [n1 s1], q as [n2 s2]. unfold print. simpl. intros H.
  injection H as H.
  apply (split_unique ",") in H as [-> H].
  - change (show_int s1 +:+ String ")" EmptyString
            = show_int s2 +:+ String ")" EmptyString) in H.
    apply (split_unique ")") in H as [H _]; [|done..].
    by rewrite (show_int_inj _ _ H).
  - rewrite occurs_app, occurs_show_int by (by left). done.
  - rewrite occurs_app, occurs_show_int by (by left). done.
Qed.

Lemma print_inj_witness : mkPerson "a,1" 2 = mkPerson "a,1" 2.
Proof. apply print_inj. reflexivity. Defined.
